(** * Utah Permit Practice: deck building and session control

    A shallow embedding of [src/App.tsx] and the properties of its deck
    builder ([shuffleArray], [buildOptions], [buildDeck]), of the session
    handlers of the [App] component and of the theme preference.

    Conventions of the embedding:
    - a JavaScript string is held in a [string] (under any one-to-one
      encoding of JavaScript strings that sends the empty string to the
      empty string), so that [===] and the membership of a [Set] are
      equality; the built-in methods [trim] and [toLowerCase] are the
      interface [StringOps], of which the proofs use that trimming twice
      is trimming once and that the empty string is trimmed, and nothing
      of [toLowerCase]; the two methods on ASCII text are given at the
      end, for the runs of the code on concrete banks;
    - a category and the filter value ['all'] are strings, as in the code;
    - [Math.random] is a scripted source: every
      [Math.floor(Math.random() * n)] consumes one entry of the script and
      yields it modulo [n], so that every outcome in [0, n) is possible;
    - arrays are lists, read and written by index; a [Set<string>] is the
      list of its members in insertion order;
    - the React state of [App] is a record, a handler is a function from
      the state (and the random source) to the next state. *)

From Stdlib Require Import ZArith Ascii String.
From Stdlib Require Uint63 Floats.PrimFloat Floats.FloatOps Floats.SpecFloat.
From stdpp Require Import base decidable option list strings gmap.

Set Default Proof Using "Type".

(** ** Strings *)

(** The two methods of [String.prototype] that [addCandidate] calls.  They
    are built into the language, not code of this program: the development
    is stated for every pair of functions with the two properties below,
    which [String.prototype.trim] has: trimming a trimmed string changes
    nothing, and the empty string is trimmed.  Nothing is assumed of
    [toLowerCase]. *)
Class StringOps : Type := {
  trim : string → string;
  toLowerCase : string → string;
  trim_idem : ∀ s, trim (trim s) = trim s;
  trim_empty : trim "" = ""
}.

(** ** The random source *)

(** The outcomes of the calls of [Math.random] still to come. *)
Definition Rand : Type := list nat.

(** A computation that draws from the random source. *)
Definition Gen (A : Type) : Type := Rand → A * Rand.

#[global] Instance Gen_ret : MRet Gen := λ A (x : A) g, (x, g).
#[global] Instance Gen_bind : MBind Gen :=
  λ A B (f : A → Gen B) (m : Gen A) g, let r := m g in f r.1 r.2.

(** [Math.floor(Math.random() * bound)]: [Math.random] is in [0, 1), the
    product stays below [bound] and its floor is an index in [0, bound).
    An exhausted script goes on with [0]. *)
Definition randomIndex (bound : nat) : Gen nat :=
  λ g, match g with
       | [] => (0, [])
       | r :: g' => (r mod bound, g')
       end.

(** ** [shuffleArray] (App.tsx, lines 22-29) *)

Section Shuffle.
Context {A : Type}.
Implicit Types (draft input : list A) (index : nat).

(** [[draft[i], draft[j]] = [draft[j], draft[i]]]: the right-hand side is
    read first, then [draft[i]] and [draft[j]] are written in this order.
    Both indices are inside the array whenever the loop runs; outside it
    the model leaves the array as it is. *)
Definition swap draft (i j : nat) : list A :=
  match draft !! i, draft !! j with
  | Some x, Some y => <[j:=x]> (<[i:=y]> draft)
  | _, _ => draft
  end.

(** The loop, from [index] down to 1. *)
Fixpoint shuffleFrom index draft : Gen (list A) :=
  match index with
  | 0 => mret draft
  | S index' =>
      swapIndex ← randomIndex (index + 1);
      shuffleFrom index' (swap draft index swapIndex)
  end.

Definition shuffleArray input : Gen (list A) :=
  shuffleFrom (length input - 1) input.

End Shuffle.

(** ** The data model *)

(** Modelled from the spec: the record type [FlashcardSource], which
    [App.tsx] imports from [./data/questions]; the fields are the ones
    [App.tsx] reads, with the types section 3 of the spec gives them
    (SourceRecord).  A [QuestionCategory] is a string. *)
Module Source.
Record t : Type := mk {
  id : string;
  prompt : string;
  answer : string;
  distractors : option (list string);
  reference : string;
  category : string;
  imageUrl : option string
}.
End Source.

Abbreviation FlashcardSource := Source.t.

(** [PermitQuestion] (App.tsx, lines 8-17). *)
Module Question.
Record t : Type := mk {
  id : string;
  prompt : string;
  options : list string;
  answerIndex : nat;
  answer : string;
  reference : string;
  category : string;
  imageUrl : option string
}.
End Question.

Abbreviation PermitQuestion := Question.t.

(** ** [buildOptions] (App.tsx, lines 31-86) *)

Section Code.
Context {ops : StringOps}.

(** [a.trim().toLowerCase() === b.trim().toLowerCase()], the comparison
    [addCandidate] makes against the answer. *)
Definition same_folded (a b : string) : Prop :=
  toLowerCase (trim a) = toLowerCase (trim b).

(** [Set.prototype.add] on a set kept in insertion order. *)
Definition Set_add (x : string) (s : list string) : list string :=
  if decide (x ∈ s) then s else s ++ [x].

Definition desiredOptionCount : nat := 4.

Section BuildOptions.
Variable source : FlashcardSource.

(** [addCandidate] (lines 39-45), with the set passed explicitly. *)
Definition addCandidate (candidate : string) (distractorSet : list string)
  : list string :=
  if decide (candidate = "") then distractorSet
  else
    let trimmed := trim candidate in
    if String.length trimmed =? 0 then distractorSet
    else if decide (toLowerCase trimmed
                    = toLowerCase (trim (Source.answer source)))
         then distractorSet
         else Set_add trimmed distractorSet.

(** The [forEach] over the shuffled curated distractors (lines 48-50). *)
Definition addCurated (shuffled : list string) (distractorSet : list string)
  : list string :=
  fold_left
    (λ set item,
       if length set <? desiredOptionCount - 1 then addCandidate item set
       else set)
    shuffled distractorSet.

(** The [for ... of] loop of [fillFromAnswers] with its [break]
    (lines 64-67). *)
Fixpoint fillLoop (shuffled : list string) (distractorSet : list string)
  : list string :=
  match shuffled with
  | [] => distractorSet
  | candidate :: rest =>
      if desiredOptionCount - 1 <=? length distractorSet then distractorSet
      else fillLoop rest (addCandidate candidate distractorSet)
  end.

(** [fillFromAnswers] (lines 61-68). *)
Definition fillFromAnswers (pool : list string) (distractorSet : list string)
  : Gen (list string) :=
  match pool with
  | [] => mret distractorSet
  | _ :: _ =>
      shuffled ← shuffleArray pool;
      mret (fillLoop shuffled distractorSet)
  end.

(** [pool.filter((item) => item.id !== source.id).map((item) => item.answer)]. *)
Definition otherAnswers (pool : list FlashcardSource) : list string :=
  Source.answer <$> filter (λ item, Source.id item ≠ Source.id source) pool.

(** [options.findIndex(p)], [None] standing for [-1]. *)
Definition findIndex (P : string → Prop) `{∀ x, Decision (P x)}
    (options : list string) : option nat :=
  fst <$> list_find P options.

Definition buildOptions (categoryPool globalPool : list FlashcardSource)
  : Gen (list string * nat) :=
  curated ←
    match Source.distractors source with
    | Some ((_ :: _) as items) =>
        shuffled ← shuffleArray items;
        mret (addCurated shuffled [])
    | _ => mret []
    end;
  let categoryAnswers := otherAnswers categoryPool in
  let globalAnswers := otherAnswers globalPool in
  fromCategory ←
    (if length curated <? desiredOptionCount - 1
     then fillFromAnswers categoryAnswers curated
     else mret curated);
  distractorSet ←
    (if length fromCategory <? desiredOptionCount - 1
     then fillFromAnswers globalAnswers fromCategory
     else mret fromCategory);
  let combined :=
    Source.answer source :: take (desiredOptionCount - 1) distractorSet in
  options ← shuffleArray combined;
  let answerIndex := findIndex (λ option, option = Source.answer source) options in
  mret (options, match answerIndex with None => 0 | Some i => i end).

End BuildOptions.

(** ** [buildDeck] (App.tsx, lines 88-107) *)

Definition buildCard (globalPool : list FlashcardSource) (source : FlashcardSource)
  : Gen PermitQuestion :=
  let categoryPool :=
    filter (λ item, Source.category item = Source.category source) globalPool in
  r ← buildOptions source categoryPool globalPool;
  mret {| Question.id := Source.id source;
          Question.prompt := Source.prompt source;
          Question.options := r.1;
          Question.answerIndex := r.2;
          Question.answer := Source.answer source;
          Question.reference := Source.reference source;
          Question.category := Source.category source;
          Question.imageUrl := Source.imageUrl source |}.

Definition buildDeck (sources globalPool : list FlashcardSource)
  : Gen (list PermitQuestion) :=
  match sources with
  | [] => mret []
  | _ :: _ =>
      cards ← mapM (buildCard globalPool) sources;
      shuffleArray cards
  end.

(** ** [shuffleArray] on a store of arrays

    The same function with the arrays kept in a store and passed by
    reference, as JavaScript passes them: [[...input]] allocates the draft,
    the loop writes into the draft only. *)

Section ShuffleStore.
Context {A : Type}.

(** The array a reference points to. *)
Definition deref (h : gmap nat (list A)) (r : nat) : list A :=
  default [] (h !! r).

(** [const draft = [...input]]: a new array with the elements of [input]. *)
Definition spread (input : nat) (h : gmap nat (list A))
  : nat * gmap nat (list A) :=
  let draft := fresh (dom h) in
  (draft, <[draft := deref h input]> h).

Fixpoint shuffleFromRef (index : nat) (draft : nat) (h : gmap nat (list A))
  : Gen (gmap nat (list A)) :=
  match index with
  | 0 => mret h
  | S index' =>
      swapIndex ← randomIndex (index + 1);
      shuffleFromRef index' draft
        (alter (λ a, swap a index swapIndex) draft h)
  end.

Definition shuffleArrayRef (input : nat) (h : gmap nat (list A))
  : Gen (nat * gmap nat (list A)) :=
  let (draft, h1) := spread input h in
  h2 ← shuffleFromRef (length (deref h1 draft) - 1) draft h1;
  mret (draft, h2).

End ShuffleStore.

(** ** The session (App.tsx, lines 126-244) *)

Inductive Theme : Set := light | dark.
Inductive Mode : Set := study | practiceTest.

(** [CategoryFilterValue = QuestionCategory | 'all'] and [CATEGORY_ALL]
    (lines 6 and 19): strings.  [QuestionCategory] is declared in
    [./data/questions]; it is taken as any string. *)
Abbreviation CategoryFilterValue := string (only parsing).

Definition CATEGORY_ALL : CategoryFilterValue := "all".

#[global] Instance Theme_eq_dec : EqDecision Theme.
Proof. solve_decision. Defined.
#[global] Instance Mode_eq_dec : EqDecision Mode.
Proof. solve_decision. Defined.

(** The [useState] cells of [App]. *)
Record AppState : Type := mkApp {
  theme : Theme;
  activeCategory : CategoryFilterValue;
  mode : Mode;
  deck : list PermitQuestion;
  currentIndex : nat;
  selectedOption : option nat;
  correctCount : nat;
  showSummary : bool
}.

Definition setTheme (v : Theme) (s : AppState) : AppState :=
  mkApp v (activeCategory s) (mode s) (deck s) (currentIndex s)
        (selectedOption s) (correctCount s) (showSummary s).
Definition setActiveCategory (v : CategoryFilterValue) (s : AppState) : AppState :=
  mkApp (theme s) v (mode s) (deck s) (currentIndex s)
        (selectedOption s) (correctCount s) (showSummary s).
Definition setMode (v : Mode) (s : AppState) : AppState :=
  mkApp (theme s) (activeCategory s) v (deck s) (currentIndex s)
        (selectedOption s) (correctCount s) (showSummary s).
Definition setDeck (v : list PermitQuestion) (s : AppState) : AppState :=
  mkApp (theme s) (activeCategory s) (mode s) v (currentIndex s)
        (selectedOption s) (correctCount s) (showSummary s).
Definition setCurrentIndex (v : nat) (s : AppState) : AppState :=
  mkApp (theme s) (activeCategory s) (mode s) (deck s) v
        (selectedOption s) (correctCount s) (showSummary s).
Definition setSelectedOption (v : option nat) (s : AppState) : AppState :=
  mkApp (theme s) (activeCategory s) (mode s) (deck s) (currentIndex s)
        v (correctCount s) (showSummary s).
Definition setCorrectCount (v : nat) (s : AppState) : AppState :=
  mkApp (theme s) (activeCategory s) (mode s) (deck s) (currentIndex s)
        (selectedOption s) v (showSummary s).
Definition setShowSummary (v : bool) (s : AppState) : AppState :=
  mkApp (theme s) (activeCategory s) (mode s) (deck s) (currentIndex s)
        (selectedOption s) (correctCount s) v.

Definition PRACTICE_TEST_SIZE : nat := 50.

Section Session.
(** [FLASHCARD_SOURCES], the question bank of [src/data/questions]. *)
Variable allSources : list FlashcardSource.

(** [filteredSources] (lines 143-146). *)
Definition filteredSources (s : AppState) : list FlashcardSource :=
  if decide (activeCategory s = CATEGORY_ALL) then allSources
  else filter (λ item, Source.category item = activeCategory s) allSources.

(** The initial state (lines 128-152): the deck is built from the whole
    bank, the theme is the preferred one. *)
Definition initialState (preferred : Theme) : Gen AppState :=
  d ← buildDeck allSources allSources;
  mret (mkApp preferred CATEGORY_ALL study d 0 None 0 false).

(** The effect of lines 168-175, run after a render in which
    [filteredSources] or [mode] changed. *)
Definition studyEffect (s : AppState) : Gen AppState :=
  match mode s with
  | practiceTest => mret s
  | study =>
      d ← buildDeck (filteredSources s) allSources;
      mret (setShowSummary false (setCorrectCount 0 (setSelectedOption None
             (setCurrentIndex 0 (setDeck d s)))))
  end.

(** [handleOptionClick] (lines 185-191).  [currentQuestion] is
    [deck[currentIndex]]; reading [answerIndex] of an absent card throws,
    which is [None] here. *)
Definition handleOptionClick (optionIndex : nat) (s : AppState)
  : option AppState :=
  match selectedOption s with
  | Some _ => Some s
  | None =>
      let s1 := setSelectedOption (Some optionIndex) s in
      match mode s with
      | study => Some s1
      | practiceTest =>
          currentQuestion ← deck s !! currentIndex s;
          if decide (optionIndex = Question.answerIndex currentQuestion)
          then Some (setCorrectCount (correctCount s + 1) s1)
          else Some s1
      end
  end.

(** [handleNext] (lines 193-209). *)
Definition handleNext (s : AppState) : Gen AppState :=
  let hasMoreQuestions := currentIndex s + 1 <? length (deck s) in
  if hasMoreQuestions
  then mret (setSelectedOption None (setCurrentIndex (currentIndex s + 1) s))
  else
    match mode s with
    | practiceTest => mret (setShowSummary true s)
    | study =>
        d ← buildDeck (filteredSources s) allSources;
        mret (setSelectedOption None (setCurrentIndex 0 (setDeck d s)))
    end.

(** [startPracticeTest] (lines 230-238). *)
Definition startPracticeTest (s : AppState) : Gen AppState :=
  shuffled ← shuffleArray allSources;
  let sampleSources :=
    take (PRACTICE_TEST_SIZE `min` length allSources) shuffled in
  d ← buildDeck sampleSources allSources;
  mret (setSelectedOption None (setCurrentIndex 0 (setDeck d
         (setCorrectCount 0 (setShowSummary false (setMode practiceTest s)))))).

(** [handleRestart] (lines 211-220). *)
Definition handleRestart (s : AppState) : Gen AppState :=
  match mode s with
  | practiceTest => startPracticeTest s
  | study =>
      d ← buildDeck (filteredSources s) allSources;
      mret (setSelectedOption None (setCurrentIndex 0 (setDeck d s)))
  end.

(** [toggleTheme] (lines 222-224). *)
Definition toggleTheme (s : AppState) : AppState :=
  setTheme (match theme s with light => dark | dark => light end) s.

(** [handleCategoryChange] (lines 226-228). *)
Definition handleCategoryChange (value : CategoryFilterValue) (s : AppState)
  : AppState :=
  setActiveCategory value s.

(** [exitPracticeTest] (lines 240-244). *)
Definition exitPracticeTest (s : AppState) : AppState :=
  setCorrectCount 0 (setShowSummary false (setMode study s)).

(** The dependencies of the effect of lines 168-175 are [filteredSources],
    [allSources] and [mode]; [filteredSources] is recomputed when
    [activeCategory] changes. *)
Definition afterRender (before after : AppState) : Gen AppState :=
  if decide (mode before = mode after
             ∧ activeCategory before = activeCategory after)
  then mret after
  else studyEffect after.

(** A press on "Start Practice Test" or "Retake Practice Test": the
    handler, then the effects of the render it causes. *)
Definition pressStartPracticeTest (s : AppState) : Gen AppState :=
  s' ← startPracticeTest s;
  afterRender s s'.

(** Answering the cards of a deck in turn: on each card one option is
    clicked, then "Next Question" (on the last card "Finish Test") is
    pressed. *)
Fixpoint answerAll (clicks : list nat) (s : AppState) : Gen (option AppState) :=
  match clicks with
  | [] => mret (Some s)
  | optionIndex :: clicks' =>
      match handleOptionClick optionIndex s with
      | None => mret None
      | Some s1 =>
          s2 ← handleNext s1;
          answerAll clicks' s2
      end
  end.

End Session.

(** ** The practice-test summary (App.tsx, lines 296-351) *)

(** A count held in a JavaScript number. *)
Definition toNumber (n : nat) : PrimFloat.float :=
  PrimFloat.of_uint63 (Uint63.of_Z (Z.of_nat n)).

(** [Math.round]: the nearest integer, a tie going to the one closer to
    plus infinity, computed exactly from the binary expansion.  [None] for
    a NaN or an infinity, which the quotient of two counts with a positive
    denominator never is. *)
Definition Math_round (x : PrimFloat.float) : option Z :=
  match FloatOps.Prim2SF x with
  | SpecFloat.S754_zero _ => Some 0%Z
  | SpecFloat.S754_finite sign m e =>
      let n := if sign then Z.neg m else Z.pos m in
      if (0 <=? e)%Z then Some (n * 2 ^ e)%Z
      else Some ((2 * n + 2 ^ (- e)) / 2 ^ (- e + 1))%Z
  | SpecFloat.S754_infinity _ | SpecFloat.S754_nan => None
  end.

(** What the summary screen shows. *)
Record Summary : Type := mkSummary {
  passed : bool;
  scorePercent : option Z;
  shownCorrect : Z;
  shownIncorrect : Z;
  shownTotal : Z
}.

(** Lines 297-299 and 339-351. *)
Definition summaryOf (s : AppState) : Summary :=
  let totalQuestions := match length (deck s) with 0 => 1 | n => n end in
  let scorePercent :=
    Math_round (PrimFloat.mul
                  (PrimFloat.div (toNumber (correctCount s)) (toNumber totalQuestions))
                  (toNumber 100)) in
  let passed := match scorePercent with
                | Some p => (80 <=? p)%Z
                | None => false
                end in
  mkSummary passed scorePercent
            (Z.of_nat (correctCount s))
            (Z.of_nat totalQuestions - Z.of_nat (correctCount s))
            (Z.of_nat totalQuestions).

(** The three screens of [App] (lines 261, 296 and 373). *)
Inductive Screen : Type :=
  | EmptyDeckScreen
  | SummaryScreen (summary : Summary)
  | CardScreen (currentQuestion : option PermitQuestion).

Definition render (s : AppState) : Screen :=
  match deck s with
  | [] => EmptyDeckScreen
  | _ :: _ =>
      match mode s, showSummary s with
      | practiceTest, true => SummaryScreen (summaryOf s)
      | _, _ => CardScreen (deck s !! currentIndex s)
      end
  end.

(** [round(100*K/N)] over the rationals: the floor of [100*K/N + 1/2]. *)
Definition roundedPercent (K N : nat) : Z :=
  ((200 * Z.of_nat K + Z.of_nat N) / (2 * Z.of_nat N))%Z.

(** The number of cards on which the click hit the card's [answerIndex]. *)
Fixpoint correctClicks (cards : list PermitQuestion) (clicks : list nat) : nat :=
  match cards, clicks with
  | card :: cards', optionIndex :: clicks' =>
      (if decide (optionIndex = Question.answerIndex card) then 1 else 0)
      + correctClicks cards' clicks'
  | _, _ => 0
  end.

(** ** The theme preference (App.tsx, lines 109-124 and 154-166) *)

(** The outcome of an expression that may throw. *)
Inductive Exc (A : Type) : Type :=
  | Returned (x : A)
  | Thrown.
Arguments Returned {A} x.
Arguments Thrown {A}.

#[global] Instance Exc_ret : MRet Exc := λ A (x : A), Returned x.
#[global] Instance Exc_bind : MBind Exc :=
  λ A B (f : A → Exc B) (m : Exc A),
    match m with
    | Returned x => f x
    | Thrown => Thrown
    end.

(** [try { body } catch { handler }]. *)
Definition tryCatch {A : Type} (body handler : Exc A) : Exc A :=
  match body with
  | Returned x => Returned x
  | Thrown => handler
  end.

(** [window.localStorage]: the stored items, and whether the browser lets
    the page read and write them. *)
Record Storage : Type := mkStorage {
  items : gmap string string;
  readable : bool;
  writable : bool
}.

Definition getItem (key : string) (st : Storage) : Exc (option string) :=
  if readable st then Returned (items st !! key) else Thrown.

Definition setItem (key value : string) (st : Storage) : Exc Storage :=
  if writable st
  then Returned (mkStorage (<[key := value]> (items st)) (readable st) (writable st))
  else Thrown.

(** What the page sees of the browser: the storage, [window.matchMedia]
    when the browser has it (the [matches] field of the list it returns for
    a query), and the class list of [document.documentElement]. *)
Record Window : Type := mkWindow {
  localStorage : Storage;
  matchMedia : option (string → bool);
  documentElement : option (list string)
}.

Definition themeName (t : Theme) : string :=
  match t with
  | light => "light"
  | dark => "dark"
  end.

(** [getPreferredTheme] (lines 109-124); [None] is
    [typeof window === 'undefined'].  The [try] block either returns the
    stored theme from the function or falls through. *)
Definition getPreferredTheme (window : option Window) : Exc Theme :=
  match window with
  | None => mret light
  | Some w =>
      returned ←
        tryCatch
          (stored ← getItem "pt-theme" (localStorage w);
           if decide (stored = Some "light") then mret (Some light)
           else if decide (stored = Some "dark") then mret (Some dark)
           else mret None)
          (mret None);
      match returned with
      | Some t => mret t
      | None =>
          let mediaQuery :=
            (λ query, query "(prefers-color-scheme: dark)") <$> matchMedia w in
          match mediaQuery with
          | Some true => mret dark
          | _ => mret light
          end
      end
  end.

(** The effect of lines 154-166, run with the current theme. *)
Definition themeEffect (t : Theme) (w : Window) : Exc Window :=
  match documentElement w with
  | None => mret w
  | Some classList =>
      let removed :=
        filter (λ c, c ≠ "theme-light" ∧ c ≠ "theme-dark") classList in
      let added :=
        removed ++ [match t with dark => "theme-dark" | light => "theme-light" end] in
      let w1 := mkWindow (localStorage w) (matchMedia w) (Some added) in
      tryCatch
        (st ← setItem "pt-theme" (themeName t) (localStorage w1);
         mret (mkWindow st (matchMedia w1) (documentElement w1)))
        (mret w1)
  end.

(** The startup theme as the spec words it: the stored value when it is one
    of the two names, otherwise the system signal, otherwise [light]. *)
Definition specifiedTheme (stored : option string) (systemDark : option bool)
  : Theme :=
  if decide (stored = Some "light") then light
  else if decide (stored = Some "dark") then dark
  else match systemDark with
       | Some true => dark
       | Some false => light
       | None => light
       end.

(** The stored preference the page can read, if any. *)
Definition readablePreference (w : Window) : option string :=
  if readable (localStorage w) then items (localStorage w) !! "pt-theme"
  else None.

Definition systemSignal (w : Window) : option bool :=
  (λ query, query "(prefers-color-scheme: dark)") <$> matchMedia w.

(** ** What the claims say of an option list *)

(** The string under which two options are compared without regard to case
    and surrounding white space. *)
Definition folded (o : string) : string := toLowerCase (trim o).

(** No two options are equal once trimmed and case-folded. *)
Definition distinctFolded (options : list string) : Prop :=
  NoDup (folded <$> options).

(** No two options are equal once trimmed. *)
Definition distinctTrimmed (options : list string) : Prop :=
  NoDup (trim <$> options).

(** The option at [answerIndex] is the answer, and it is the only option
    equal to the answer without regard to case and surrounding white space. *)
Definition pointsAtAnswer (answer : string) (options : list string)
    (answerIndex : nat) : Prop :=
  options !! answerIndex = Some answer
  ∧ ∀ j o, options !! j = Some o → same_folded o answer → j = answerIndex.

(** The invariant of a card, with the options compared trimmed. *)
Definition cardInvariant (card : PermitQuestion) : Prop :=
  distinctTrimmed (Question.options card)
  ∧ pointsAtAnswer (Question.answer card) (Question.options card)
      (Question.answerIndex card).

(** The bank holds three records other than [source] whose answers differ
    from each other and from the answer of [source] without regard to case
    and surrounding white space. *)
Definition threeOtherAnswers (source : FlashcardSource)
    (globalPool : list FlashcardSource) : Prop :=
  ∃ a b c,
    a ∈ otherAnswers source globalPool
    ∧ b ∈ otherAnswers source globalPool
    ∧ c ∈ otherAnswers source globalPool
    ∧ ¬ same_folded a b ∧ ¬ same_folded a c ∧ ¬ same_folded b c
    ∧ ¬ same_folded a (Source.answer source)
    ∧ ¬ same_folded b (Source.answer source)
    ∧ ¬ same_folded c (Source.answer source).

(** A candidate [addCandidate] lets into the set: not blank, and not the
    answer. *)
Definition admitted (source : FlashcardSource) (candidate : string) : Prop :=
  trim candidate ≠ ""
  ∧ ¬ same_folded candidate (Source.answer source).

(** The same with none of the three answers blank: each is a candidate
    [addCandidate] admits. *)
Definition threeAdmittedAnswers (source : FlashcardSource)
    (globalPool : list FlashcardSource) : Prop :=
  ∃ a b c,
    a ∈ otherAnswers source globalPool
    ∧ b ∈ otherAnswers source globalPool
    ∧ c ∈ otherAnswers source globalPool
    ∧ ¬ same_folded a b ∧ ¬ same_folded a c ∧ ¬ same_folded b c
    ∧ admitted source a ∧ admitted source b ∧ admitted source c.

(** A record with the fields the deck builder reads. *)
Definition record (id answer category : string) (distractors : option (list string))
  : FlashcardSource :=
  Source.mk id "" answer distractors "" category None.

(** A bank in which three answers differ by case only. *)
Definition yieldSource : FlashcardSource := record "A" "Yield" "Signs" None.

Definition caseBank : list FlashcardSource :=
  [ yieldSource;
    record "B" "Merge" "Signs" None;
    record "C" "Stop" "Signs" None;
    record "D" "stop" "Signs" None;
    record "E" "STOP" "Signs" None;
    record "F" "Go" "Signs" None ].

(** The bank of the example in section 8 of the spec. *)
Definition signsBank : list FlashcardSource :=
  [ yieldSource;
    record "B" "Stop" "Signs" None;
    record "C" "Merge" "Signs" None;
    record "D" "Speed Limit" "Signs" None ].

(** A bank with a blank answer. *)
Definition blankBank : list FlashcardSource :=
  [ yieldSource;
    record "B" " " "Signs" None;
    record "C" "Stop" "Signs" None;
    record "D" "Go" "Signs" None ].

(** * Proofs *)

(** ** Strings *)

Lemma length_zero s : String.length s = 0 ↔ s = "".
Proof. destruct s; simpl; split; intros; done. Qed.

Lemma same_folded_trimmed a b : trim a = trim b → same_folded a b.
Proof. unfold same_folded. by intros ->. Qed.

(** ** The random source and the shuffle *)

Lemma randomIndex_lt bound g : 0 < bound → (randomIndex bound g).1 < bound.
Proof.
  intros Hb. destruct g as [|r g']; simpl; [done|].
  apply Nat.mod_upper_bound. lia.
Qed.

(** Inside the loop of [shuffleArray] both indices of the swap are inside
    the array. *)
Lemma swapIndex_in_range {A} (draft : list A) index g :
  index < length draft → (randomIndex (index + 1) g).1 < length draft.
Proof.
  intros Hi. pose proof (randomIndex_lt (index + 1) g ltac:(lia)). lia.
Qed.

Lemma Gen_bind_fst {A B} (m : Gen A) (f : A → Gen B) g :
  (m ≫= f) g = f (m g).1 (m g).2.
Proof. done. Qed.

Section ShuffleFacts.
Context {A : Type}.
Implicit Types (draft input : list A) (index : nat).

Definition transpose (i j x : nat) : nat :=
  if decide (x = i) then j else if decide (x = j) then i else x.

Lemma transpose_inj i j : Inj (=) (=) (transpose i j).
Proof.
  intros x y. unfold transpose.
  repeat case_decide; intros; subst; congruence.
Qed.

Lemma length_swap draft i j : length (swap draft i j) = length draft.
Proof.
  unfold swap. destruct (draft !! i), (draft !! j); try done.
  by rewrite !length_insert.
Qed.

Lemma swap_lookup draft i j k :
  i < length draft → j < length draft →
  swap draft i j !! k = draft !! transpose i j k.
Proof.
  intros Hi Hj. unfold swap, transpose.
  destruct (lookup_lt_is_Some_2 _ _ Hi) as [x Hx].
  destruct (lookup_lt_is_Some_2 _ _ Hj) as [y Hy].
  rewrite Hx, Hy.
  destruct (decide (k = j)) as [->|Hkj].
  - rewrite list_lookup_insert_eq by (by rewrite length_insert).
    case_decide; by subst.
  - rewrite list_lookup_insert_ne by done.
    destruct (decide (k = i)) as [->|Hki].
    + by rewrite list_lookup_insert_eq.
    + by rewrite list_lookup_insert_ne.
Qed.

Lemma swap_Permutation draft i j : swap draft i j ≡ₚ draft.
Proof.
  destruct (decide (i < length draft ∧ j < length draft)) as [[Hi Hj]|Hn].
  - apply Permutation_inj. split; [apply length_swap|].
    exists (transpose i j). split; [apply transpose_inj|].
    intros k. by apply swap_lookup.
  - unfold swap.
    destruct (draft !! i) eqn:Ei; [|done].
    destruct (draft !! j) eqn:Ej; [|done].
    apply lookup_lt_Some in Ei, Ej. tauto.
Qed.

Lemma shuffleFrom_Permutation index draft g :
  (shuffleFrom index draft g).1 ≡ₚ draft.
Proof.
  revert draft g. induction index as [|index IH]; intros draft g; [done|].
  simpl. unfold mbind, Gen_bind. rewrite IH. apply swap_Permutation.
Qed.

Lemma shuffleArray_Permutation input g : (shuffleArray input g).1 ≡ₚ input.
Proof. apply shuffleFrom_Permutation. Qed.

Lemma shuffleArray_length input g :
  length (shuffleArray input g).1 = length input.
Proof. apply Permutation_length, shuffleArray_Permutation. Qed.

Lemma shuffleArray_elem input g x : x ∈ (shuffleArray input g).1 ↔ x ∈ input.
Proof. by rewrite shuffleArray_Permutation. Qed.

End ShuffleFacts.

(** ** The distractor set *)

Lemma Set_add_elem x y s : x ∈ Set_add y s ↔ x = y ∨ x ∈ s.
Proof.
  unfold Set_add. case_decide as Hy.
  - split; [by right|]. by intros [->|?].
  - rewrite elem_of_app, list_elem_of_singleton. tauto.
Qed.

Lemma Set_add_NoDup y s : NoDup s → NoDup (Set_add y s).
Proof.
  intros Hs. unfold Set_add. case_decide as Hy; [done|].
  apply NoDup_app. split_and!; [done| |apply NoDup_singleton].
  intros x Hx ->%list_elem_of_singleton. done.
Qed.

Lemma Set_add_length y s :
  length s ≤ length (Set_add y s) ≤ S (length s).
Proof.
  unfold Set_add. case_decide; [lia|]. rewrite length_app. simpl. lia.
Qed.

Section OptionFacts.
Variable source : FlashcardSource.

(** A member of the distractor set is trimmed, not empty, and differs from
    the trimmed answer even without regard to case. *)
Definition distractorOk (d : string) : Prop :=
  trim d = d ∧ d ≠ ""
  ∧ toLowerCase d ≠ toLowerCase (trim (Source.answer source)).

Definition setOk (s : list string) : Prop :=
  NoDup s ∧ Forall distractorOk s.

Lemma addCandidate_cases candidate s :
  (admitted source candidate
   ∧ addCandidate source candidate s = Set_add (trim candidate) s)
  ∨ (¬ admitted source candidate ∧ addCandidate source candidate s = s).
Proof.
  unfold addCandidate, admitted, same_folded.
  destruct (decide (candidate = "")) as [->|Hne].
  { right. split; [|done]. intros [H _]. apply H, trim_empty. }
  simpl. destruct (String.length (trim candidate) =? 0) eqn:El.
  { apply Nat.eqb_eq, length_zero in El. right. split; [|done]. tauto. }
  apply Nat.eqb_neq in El. rewrite length_zero in El.
  case_decide as Hf.
  - right. split; [|done]. tauto.
  - left. split; [|done]. tauto.
Qed.

Lemma admitted_distractorOk candidate :
  admitted source candidate → distractorOk (trim candidate).
Proof.
  intros [Hb Hf]. unfold distractorOk. rewrite trim_idem. done.
Qed.

Lemma addCandidate_ok candidate s : setOk s → setOk (addCandidate source candidate s).
Proof.
  intros [Hnd Hall].
  destruct (addCandidate_cases candidate s) as [[Ha ->]|[_ ->]]; [|done].
  split; [by apply Set_add_NoDup|].
  apply Forall_forall. intros x [->|Hx]%Set_add_elem.
  - by apply admitted_distractorOk.
  - by eapply Forall_forall in Hall.
Qed.

Lemma addCandidate_length candidate s :
  length s ≤ length (addCandidate source candidate s) ≤ S (length s).
Proof.
  destruct (addCandidate_cases candidate s) as [[_ ->]|[_ ->]]; [|lia].
  apply Set_add_length.
Qed.

Lemma addCandidate_mono candidate s x :
  x ∈ s → x ∈ addCandidate source candidate s.
Proof.
  intros Hx.
  destruct (addCandidate_cases candidate s) as [[_ ->]|[_ ->]]; [|done].
  apply Set_add_elem. by right.
Qed.

Lemma addCandidate_admits candidate s :
  admitted source candidate →
  trim candidate ∈ addCandidate source candidate s.
Proof.
  intros Ha.
  destruct (addCandidate_cases candidate s) as [[_ ->]|[Hn _]]; [|done].
  apply Set_add_elem. by left.
Qed.

(** The set never outgrows the three wrong options wanted. *)
Definition withinCount (s : list string) : Prop :=
  length s ≤ desiredOptionCount - 1.

Lemma addCurated_cons item rest s :
  addCurated source (item :: rest) s
  = addCurated source rest
      (if length s <? 3 then addCandidate source item s else s).
Proof. done. Qed.

Lemma fillLoop_cons candidate rest s :
  fillLoop source (candidate :: rest) s
  = if 3 <=? length s then s
    else fillLoop source rest (addCandidate source candidate s).
Proof. done. Qed.

Lemma addCurated_ok shuffled s :
  setOk s → withinCount s →
  setOk (addCurated source shuffled s) ∧ withinCount (addCurated source shuffled s).
Proof.
  unfold withinCount. change (desiredOptionCount - 1) with 3. revert s.
  induction shuffled as [|item rest IH]; intros s Hok Hlen; [done|].
  rewrite addCurated_cons. destruct (length s <? 3) eqn:E.
  - apply Nat.ltb_lt in E. apply IH; [by apply addCandidate_ok|].
    pose proof (addCandidate_length item s). lia.
  - by apply IH.
Qed.

Lemma fillLoop_ok shuffled s :
  setOk s → withinCount s →
  setOk (fillLoop source shuffled s) ∧ withinCount (fillLoop source shuffled s).
Proof.
  unfold withinCount. change (desiredOptionCount - 1) with 3. revert s.
  induction shuffled as [|candidate rest IH]; intros s Hok Hlen; [done|].
  rewrite fillLoop_cons. destruct (3 <=? length s) eqn:E; [done|].
  apply Nat.leb_gt in E. apply IH; [by apply addCandidate_ok|].
  pose proof (addCandidate_length candidate s). lia.
Qed.

Lemma fillLoop_mono shuffled s x : x ∈ s → x ∈ fillLoop source shuffled s.
Proof.
  revert s. induction shuffled as [|candidate rest IH]; intros s Hx; [done|].
  rewrite fillLoop_cons. destruct (3 <=? length s); [done|].
  by apply IH, addCandidate_mono.
Qed.

(** The loop stops early only on a full set: otherwise every candidate it
    was given and could admit is in the set. *)
Lemma fillLoop_complete shuffled s :
  desiredOptionCount - 1 ≤ length (fillLoop source shuffled s)
  ∨ ∀ c, c ∈ shuffled → admitted source c →
         trim c ∈ fillLoop source shuffled s.
Proof.
  change (desiredOptionCount - 1) with 3.
  revert s. induction shuffled as [|candidate rest IH]; intros s.
  { right. intros c Hc. by apply elem_of_nil in Hc. }
  rewrite fillLoop_cons. destruct (3 <=? length s) eqn:E.
  { left. by apply Nat.leb_le. }
  destruct (IH (addCandidate source candidate s)) as [Hfull|Hall]; [by left|].
  right. intros c [->|Hc]%elem_of_cons Ha; [|by apply Hall].
  by apply fillLoop_mono, addCandidate_admits.
Qed.

Lemma fillFromAnswers_ok pool s g :
  setOk s → withinCount s →
  setOk (fillFromAnswers source pool s g).1
  ∧ withinCount (fillFromAnswers source pool s g).1.
Proof.
  intros Hok Hlen. destruct pool as [|a pool]; [done|].
  unfold fillFromAnswers. rewrite Gen_bind_fst. simpl. by apply fillLoop_ok.
Qed.

Lemma fillFromAnswers_complete pool s g :
  desiredOptionCount - 1 ≤ length (fillFromAnswers source pool s g).1
  ∨ ∀ c, c ∈ pool → admitted source c →
         trim c ∈ (fillFromAnswers source pool s g).1.
Proof.
  destruct pool as [|a pool].
  { right. intros c Hc. by apply elem_of_nil in Hc. }
  unfold fillFromAnswers. rewrite Gen_bind_fst. simpl.
  destruct (fillLoop_complete (shuffleArray (a :: pool) g).1 s) as [?|Hall]; [by left|].
  right. intros c Hc. apply Hall. by apply shuffleArray_elem.
Qed.

End OptionFacts.

(** ** [buildOptions] *)

Section BuildOptionsFacts.
Variable source : FlashcardSource.
Variables categoryPool globalPool : list FlashcardSource.

(** The distractor set when line 78 reads it. *)
Definition collected : Gen (list string) :=
  curated ←
    match Source.distractors source with
    | Some ((_ :: _) as items) =>
        shuffled ← shuffleArray items;
        mret (addCurated source shuffled [])
    | _ => mret []
    end;
  fromCategory ←
    (if length curated <? desiredOptionCount - 1
     then fillFromAnswers source (otherAnswers source categoryPool) curated
     else mret curated);
  if length fromCategory <? desiredOptionCount - 1
  then fillFromAnswers source (otherAnswers source globalPool) fromCategory
  else mret fromCategory.

(** Lines 78-85 from a given distractor set. *)
Definition finished (distractorSet : list string) : Gen (list string * nat) :=
  options ← shuffleArray (Source.answer source :: take 3 distractorSet);
  mret (options,
        match findIndex (λ option, option = Source.answer source) options with
        | None => 0
        | Some i => i
        end).

Lemma buildOptions_collected g :
  buildOptions source categoryPool globalPool g
  = finished (collected g).1 (collected g).2.
Proof. done. Qed.

Lemma setOk_nil : setOk source [].
Proof. split; [apply NoDup_nil_2|apply Forall_nil_2]. Qed.

Lemma withinCount_nil : withinCount [].
Proof. unfold withinCount. simpl. lia. Qed.

Lemma guarded_fill_ok pool s g :
  setOk source s → withinCount s →
  let r := (if length s <? desiredOptionCount - 1
            then fillFromAnswers source pool s
            else mret s) g in
  setOk source r.1 ∧ withinCount r.1.
Proof.
  intros Hok Hlen. simpl.
  destruct (length s <? 3); [by apply fillFromAnswers_ok|done].
Qed.

Lemma guarded_fill_complete pool s g :
  let r := (if length s <? desiredOptionCount - 1
            then fillFromAnswers source pool s
            else mret s) g in
  desiredOptionCount - 1 ≤ length r.1
  ∨ ∀ c, c ∈ pool → admitted source c → trim c ∈ r.1.
Proof.
  simpl. destruct (length s <? 3) eqn:E; [apply fillFromAnswers_complete|].
  left. apply Nat.ltb_ge in E. done.
Qed.

Lemma curated_ok g :
  let r := (match Source.distractors source with
            | Some ((_ :: _) as items) =>
                shuffled ← shuffleArray items;
                mret (addCurated source shuffled [])
            | _ => mret []
            end) g in
  setOk source r.1 ∧ withinCount r.1.
Proof.
  simpl. destruct (Source.distractors source) as [[|item items]|];
    try (split; [apply setOk_nil|apply withinCount_nil]).
  rewrite Gen_bind_fst. simpl.
  apply addCurated_ok; [apply setOk_nil|apply withinCount_nil].
Qed.

Lemma collected_ok g : setOk source (collected g).1 ∧ withinCount (collected g).1.
Proof.
  unfold collected. rewrite !Gen_bind_fst.
  apply guarded_fill_ok; apply guarded_fill_ok; apply curated_ok.
Qed.

Lemma collected_complete g :
  desiredOptionCount - 1 ≤ length (collected g).1
  ∨ ∀ c, c ∈ otherAnswers source globalPool → admitted source c →
         trim c ∈ (collected g).1.
Proof.
  unfold collected. rewrite !Gen_bind_fst. apply guarded_fill_complete.
Qed.

(** With three admitted answers in the bank the set is full. *)
Lemma collected_full g :
  threeAdmittedAnswers source globalPool → length (collected g).1 = 3.
Proof.
  intros (a & b & c & Ha & Hb & Hc & Fab & Fac & Fbc & Aa & Ab & Ac).
  assert (trim a ≠ trim b) as Hab by (intros E; by apply Fab, same_folded_trimmed).
  assert (trim a ≠ trim c) as Hac by (intros E; by apply Fac, same_folded_trimmed).
  assert (trim b ≠ trim c) as Hbc by (intros E; by apply Fbc, same_folded_trimmed).
  destruct (collected_ok g) as [[Hnd _] Hlen]. unfold withinCount in Hlen.
  change (desiredOptionCount - 1) with 3 in Hlen.
  destruct (collected_complete g) as [Hfull|Hall].
  { change (desiredOptionCount - 1) with 3 in Hfull. lia. }
  assert ([trim a; trim b; trim c] ⊆+ (collected g).1) as Hsub.
  { apply NoDup_submseteq.
    - apply NoDup_cons_2; [rewrite !not_elem_of_cons; split_and!; [done..|apply not_elem_of_nil]|].
      apply NoDup_cons_2; [rewrite !not_elem_of_cons; split_and!; [done|apply not_elem_of_nil]|].
      apply NoDup_singleton.
    - intros x Hx. rewrite !elem_of_cons in Hx.
      destruct Hx as [->|[->|[->|Hx]]]; [by apply Hall..|].
      by apply elem_of_nil in Hx. }
  apply submseteq_length in Hsub. simpl in Hsub. lia.
Qed.

End BuildOptionsFacts.

Section FinishedFacts.
Variable source : FlashcardSource.

Lemma distractorOk_not_answer d :
  distractorOk source d → ¬ same_folded d (Source.answer source).
Proof.
  intros (Ht & _ & Hf). unfold same_folded. by rewrite Ht.
Qed.

Lemma trimmed_distractors ds : Forall (distractorOk source) ds → trim <$> ds = ds.
Proof.
  induction 1 as [|d ds (Ht & _) _ IH]; [done|].
  rewrite fmap_cons, Ht, IH. done.
Qed.

Lemma combined_distinctTrimmed ds :
  setOk source ds → distinctTrimmed (Source.answer source :: ds).
Proof.
  intros [Hnd Hall]. unfold distinctTrimmed. rewrite fmap_cons.
  rewrite (trimmed_distractors ds Hall).
  apply NoDup_cons_2; [|done].
  intros Hin. eapply Forall_forall in Hall; [|done].
  apply (distractorOk_not_answer _ Hall). apply same_folded_trimmed, trim_idem.
Qed.

Lemma setOk_take n ds : setOk source ds → setOk source (take n ds).
Proof.
  intros [Hnd Hall]. split; [|by apply Forall_take].
  eapply sublist_NoDup; [done|apply sublist_take].
Qed.

Lemma finished_Permutation ds g :
  (finished source ds g).1.1 ≡ₚ Source.answer source :: take 3 ds.
Proof. apply shuffleArray_Permutation. Qed.

Lemma finished_distinctTrimmed ds g :
  setOk source ds → distinctTrimmed (finished source ds g).1.1.
Proof.
  intros Hok. unfold distinctTrimmed.
  rewrite finished_Permutation. by apply combined_distinctTrimmed, setOk_take.
Qed.

Lemma finished_answerIndex ds g :
  (finished source ds g).1.1 !! (finished source ds g).1.2
  = Some (Source.answer source).
Proof.
  unfold finished. rewrite Gen_bind_fst. simpl.
  set (options := (shuffleArray _ g).1).
  assert (Source.answer source ∈ options) as Hin.
  { apply shuffleArray_elem, elem_of_cons. by left. }
  unfold findIndex.
  destruct (list_find_elem_of (λ option, option = Source.answer source)
              options _ Hin eq_refl) as [[i x] Hfind].
  rewrite Hfind. simpl.
  apply list_find_Some in Hfind as (Hi & -> & _). done.
Qed.

Lemma finished_pointsAtAnswer ds g :
  setOk source ds →
  pointsAtAnswer (Source.answer source)
    (finished source ds g).1.1 (finished source ds g).1.2.
Proof.
  intros Hok. split; [apply finished_answerIndex|].
  intros j o Hj Hsame.
  pose proof (finished_distinctTrimmed ds g Hok) as Hnd.
  apply NoDup_fmap_1 in Hnd.
  assert (o = Source.answer source) as ->.
  { apply list_elem_of_lookup_2 in Hj.
    rewrite finished_Permutation in Hj.
    apply elem_of_cons in Hj as [->|Hin]; [done|].
    destruct (setOk_take 3 ds Hok) as [_ Hall].
    eapply Forall_forall in Hall; [|done].
    by apply distractorOk_not_answer in Hall. }
  eapply NoDup_lookup; [done..|apply finished_answerIndex].
Qed.

Lemma finished_length ds g :
  length (finished source ds g).1.1 = S (length ds `min` 3).
Proof.
  rewrite finished_Permutation. simpl. rewrite length_take. lia.
Qed.

End FinishedFacts.

(** A monadic map over the random source maps each element in turn. *)
Lemma mapM_Gen_Forall2 {A B} (f : A → Gen B) (R : A → B → Prop) l g :
  (∀ x g', R x (f x g').1) → Forall2 R l (mapM f l g).1.
Proof.
  intros Hf. revert g. induction l as [|x l IH]; intros g; simpl.
  { apply Forall2_nil_2. }
  apply Forall2_cons_2; [apply Hf|apply IH].
Qed.

Lemma buildCard_id globalPool source g :
  Question.id (buildCard globalPool source g).1 = Source.id source.
Proof. done. Qed.

Lemma buildCard_options globalPool source g :
  let categoryPool :=
    filter (λ item, Source.category item = Source.category source) globalPool in
  let r := (buildOptions source categoryPool globalPool g).1 in
  Question.options (buildCard globalPool source g).1 = r.1
  ∧ Question.answerIndex (buildCard globalPool source g).1 = r.2
  ∧ Question.answer (buildCard globalPool source g).1 = Source.answer source.
Proof. done. Qed.

Lemma buildCard_invariant globalPool source g :
  cardInvariant (buildCard globalPool source g).1.
Proof.
  unfold cardInvariant.
  destruct (buildCard_options globalPool source g) as (-> & -> & ->).
  rewrite buildOptions_collected.
  split.
  - apply finished_distinctTrimmed, collected_ok.
  - apply finished_pointsAtAnswer, collected_ok.
Qed.

Lemma buildDeck_cards sources globalPool g :
  (buildDeck sources globalPool g).1
  ≡ₚ (mapM (buildCard globalPool) sources g).1.
Proof.
  destruct sources as [|source sources]; [done|].
  unfold buildDeck. rewrite Gen_bind_fst. apply shuffleArray_Permutation.
Qed.

Lemma buildDeck_ids sources globalPool g :
  Question.id <$> (buildDeck sources globalPool g).1 ≡ₚ Source.id <$> sources.
Proof.
  rewrite buildDeck_cards.
  assert (Forall2 (λ s c, Question.id c = Source.id s) sources
            (mapM (buildCard globalPool) sources g).1) as H.
  { apply mapM_Gen_Forall2. intros. apply buildCard_id. }
  induction H as [|s c ss cs Hid _ IH]; [done|].
  rewrite !fmap_cons, Hid, IH. done.
Qed.

Lemma buildDeck_length sources globalPool g :
  length (buildDeck sources globalPool g).1 = length sources.
Proof.
  rewrite <- (length_fmap Question.id), buildDeck_ids, length_fmap. done.
Qed.

Lemma buildDeck_invariant sources globalPool g :
  Forall cardInvariant (buildDeck sources globalPool g).1.
Proof.
  rewrite buildDeck_cards.
  assert (Forall2 (λ _ c, cardInvariant c) sources
            (mapM (buildCard globalPool) sources g).1) as H.
  { apply mapM_Gen_Forall2. intros. apply buildCard_invariant. }
  induction H; [apply Forall_nil_2|by apply Forall_cons_2].
Qed.

(** C3: [buildDeck] returns as many cards as it was given sources, the
    identifiers of the cards are the identifiers of the sources up to
    order, multiplicities included, and no sources give the empty deck. *)
Theorem buildDeck_length_and_ids
    (sources globalPool : list FlashcardSource) (g : Rand) :
  length (buildDeck sources globalPool g).1 = length sources
  ∧ Question.id <$> (buildDeck sources globalPool g).1 ≡ₚ Source.id <$> sources
  ∧ (buildDeck [] globalPool g).1 = [].
Proof.
  split_and!; [apply buildDeck_length|apply buildDeck_ids|done].
Qed.

(** The source with its list of curated distractors replaced. *)
Definition withDistractors (d : option (list string)) (source : FlashcardSource)
  : FlashcardSource :=
  Source.mk (Source.id source) (Source.prompt source) (Source.answer source) d
    (Source.reference source) (Source.category source) (Source.imageUrl source).

(** C4: on every input [buildOptions] returns between 1 and 4 options, the
    answer among them, with [answerIndex] inside the list and at the
    position of the answer; an absent list of distractors is treated as
    an empty one. *)
Theorem buildOptions_total
    (source : FlashcardSource) (categoryPool globalPool : list FlashcardSource)
    (g : Rand) :
  let r := (buildOptions source categoryPool globalPool g).1 in
  1 ≤ length r.1 ≤ 4
  ∧ Source.answer source ∈ r.1
  ∧ r.2 < length r.1
  ∧ r.1 !! r.2 = Some (Source.answer source)
  ∧ buildOptions (withDistractors None source) categoryPool globalPool g
    = buildOptions (withDistractors (Some []) source) categoryPool globalPool g.
Proof.
  cbv zeta. rewrite buildOptions_collected.
  pose proof (finished_answerIndex source (collected source categoryPool globalPool g).1
                (collected source categoryPool globalPool g).2) as Hidx.
  split_and!.
  - rewrite finished_length. lia.
  - rewrite finished_length. lia.
  - by eapply list_elem_of_lookup_2.
  - by eapply lookup_lt_Some.
  - done.
  - done.
Qed.

(** ** [shuffleArray] and the arrays it is given *)

Section ShuffleStoreFacts.
Context {A : Type}.
Implicit Types (h : gmap nat (list A)) (xs : list A).

Lemma shuffleFromRef_pure index draft h xs g :
  h !! draft = Some xs →
  shuffleFromRef index draft h g
  = (<[draft := (shuffleFrom index xs g).1]> h, (shuffleFrom index xs g).2).
Proof.
  revert h xs g. induction index as [|index IH]; intros h xs g Hd.
  { simpl. by rewrite insert_id. }
  simpl. rewrite !Gen_bind_fst.
  erewrite IH by (rewrite lookup_alter_eq, Hd; done).
  by rewrite insert_alter_eq.
Qed.

Lemma shuffleArrayRef_pure input h xs g :
  h !! input = Some xs →
  shuffleArrayRef input h g
  = ((fresh (dom h), <[fresh (dom h) := (shuffleArray xs g).1]> h),
     (shuffleArray xs g).2).
Proof.
  intros Hin. unfold shuffleArrayRef, spread, deref.
  rewrite Hin. simpl. rewrite lookup_insert_eq. simpl.
  rewrite Gen_bind_fst.
  rewrite (shuffleFromRef_pure _ _ _ xs) by apply lookup_insert_eq.
  simpl. by rewrite insert_insert_eq.
Qed.

End ShuffleStoreFacts.

(** C10: [shuffleArray] returns a permutation of its input (the same
    length, the same elements with their multiplicities) in a newly
    allocated array; the input array, and every array there was before the
    call, is left as it was. *)
Theorem shuffleArray_permutation_fresh
    {A : Type} (h : gmap nat (list A)) (input : nat) (xs : list A) (g : Rand) :
  h !! input = Some xs →
  let r := shuffleArrayRef input h g in
  let draft := r.1.1 in
  let h' := r.1.2 in
  (shuffleArray xs g).1 ≡ₚ xs
  ∧ length (shuffleArray xs g).1 = length xs
  ∧ h' !! draft = Some (shuffleArray xs g).1
  ∧ h !! draft = None
  ∧ h' !! input = Some xs
  ∧ (∀ other, is_Some (h !! other) → h' !! other = h !! other)
  ∧ r.2 = (shuffleArray xs g).2.
Proof.
  intros Hin. cbv zeta. rewrite (shuffleArrayRef_pure input h xs g Hin). simpl.
  assert (h !! fresh (dom h) = None) as Hfresh by apply not_elem_of_dom, is_fresh.
  assert (∀ other, is_Some (h !! other) →
                   <[fresh (dom h) := (shuffleArray xs g).1]> h !! other = h !! other)
    as Hframe.
  { intros other [ys Hys]. apply lookup_insert_ne. congruence. }
  split_and!.
  - apply shuffleArray_Permutation.
  - apply shuffleArray_length.
  - apply lookup_insert_eq.
  - done.
  - rewrite Hframe, Hin; done.
  - done.
  - done.
Qed.

Lemma shuffleArray_permutation_fresh_witness :
  let h : gmap nat (list string) := {[ 0 := ["a"; "b"; "c"] ]} in
  h !! 0 = Some ["a"; "b"; "c"]
  ∧ let r := shuffleArrayRef 0 h [1; 0] in
    r.1.2 !! r.1.1 = Some ["c"; "a"; "b"] ∧ r.1.2 !! 0 = Some ["a"; "b"; "c"].
Proof.
  cbv zeta. split; [done|].
  pose proof (shuffleArray_permutation_fresh
                ({[ 0 := ["a"; "b"; "c"] ]} : gmap nat (list string)) 0
                ["a"; "b"; "c"] [1; 0] eq_refl) as H.
  cbv zeta in H. destruct H as (_ & _ & Hd & _ & Hi & _). split; [|exact Hi].
  rewrite Hd. vm_compute. reflexivity.
Defined.

(** ** The session handlers *)

(** The branches of [handleOptionClick]. *)
Lemma handleOptionClick_answered s optionIndex :
  selectedOption s ≠ None → handleOptionClick optionIndex s = Some s.
Proof.
  intros Hsel. unfold handleOptionClick. by destruct (selectedOption s).
Qed.

Lemma handleOptionClick_study s optionIndex :
  selectedOption s = None → mode s = study →
  handleOptionClick optionIndex s = Some (setSelectedOption (Some optionIndex) s).
Proof.
  intros Hsel Hmode. unfold handleOptionClick. by rewrite Hsel, Hmode.
Qed.

Lemma handleOptionClick_practiceTest s optionIndex currentQuestion :
  selectedOption s = None → mode s = practiceTest →
  deck s !! currentIndex s = Some currentQuestion →
  handleOptionClick optionIndex s
  = Some (setCorrectCount
            (correctCount s
             + (if decide (optionIndex = Question.answerIndex currentQuestion)
                then 1 else 0))
            (setSelectedOption (Some optionIndex) s)).
Proof.
  intros Hsel Hmode Hcard. unfold handleOptionClick.
  rewrite Hsel, Hmode, Hcard. simpl. case_decide; [done|].
  rewrite Nat.add_0_r. by destruct s.
Qed.

(** C7: a click on an option of an unanswered card records the selection
    and adds one to the correct count exactly when the mode is the practice
    test and the option is the card's [answerIndex]; nothing else changes,
    and any later click on the card changes nothing at all. *)
Theorem handleOptionClick_once
    (s : AppState) (currentQuestion : PermitQuestion) (optionIndex : nat) :
  selectedOption s = None →
  deck s !! currentIndex s = Some currentQuestion →
  ∃ s',
    handleOptionClick optionIndex s = Some s'
    ∧ selectedOption s' = Some optionIndex
    ∧ correctCount s'
      = correctCount s
        + (if decide (mode s = practiceTest
                      ∧ optionIndex = Question.answerIndex currentQuestion)
           then 1 else 0)
    ∧ s' = setCorrectCount (correctCount s') (setSelectedOption (Some optionIndex) s)
    ∧ ∀ again, handleOptionClick again s' = Some s'.
Proof.
  intros Hsel Hcard. destruct (mode s) eqn:Hmode.
  - exists (setSelectedOption (Some optionIndex) s).
    split; [by apply handleOptionClick_study|].
    split; [done|]. split.
    { rewrite decide_False by (by intros [? _]). simpl. lia. }
    split; [done|]. intros again. by apply handleOptionClick_answered.
  - eexists. split; [by eapply handleOptionClick_practiceTest|].
    split; [done|]. split.
    { simpl. destruct (decide (optionIndex = Question.answerIndex currentQuestion)).
      - by rewrite decide_True.
      - rewrite decide_False; [done|]. by intros [_ ?]. }
    split; [done|]. intros again. by apply handleOptionClick_answered.
Qed.

(** A practice test on its first card, and the same in study mode. *)
Definition stopCard : PermitQuestion :=
  Question.mk "B" "" ["Yield"; "Merge"; "Speed Limit"; "Stop"] 3 "Stop" "" "Signs" None.

Definition yieldCard : PermitQuestion :=
  Question.mk "A" "" ["Stop"; "Speed Limit"; "Yield"; "Merge"] 2 "Yield" "" "Signs" None.

Definition practiceStart : AppState :=
  mkApp light CATEGORY_ALL practiceTest [stopCard; yieldCard] 0 None 0 false.

Lemma handleOptionClick_once_witness :
  ∃ s',
    handleOptionClick 3 practiceStart = Some s'
    ∧ selectedOption s' = Some 3
    ∧ correctCount s' = 1
    ∧ handleOptionClick 0 s' = Some s'.
Proof.
  destruct (handleOptionClick_once practiceStart stopCard 3 eq_refl eq_refl)
    as (s' & Hs' & Hsel & Hcount & _ & Hagain).
  exists s'. split_and!; [exact Hs'|exact Hsel|exact Hcount|apply Hagain].
Defined.

Section HandleNextFacts.
Variable allSources : list FlashcardSource.

Lemma handleNext_more s g :
  currentIndex s + 1 < length (deck s) →
  handleNext allSources s g
  = (setSelectedOption None (setCurrentIndex (currentIndex s + 1) s), g).
Proof.
  intros Hmore. unfold handleNext. apply Nat.ltb_lt in Hmore. by rewrite Hmore.
Qed.

Lemma handleNext_last_study s g :
  ¬ currentIndex s + 1 < length (deck s) → mode s = study →
  handleNext allSources s g
  = (setSelectedOption None (setCurrentIndex 0
       (setDeck (buildDeck (filteredSources allSources s) allSources g).1 s)),
     (buildDeck (filteredSources allSources s) allSources g).2).
Proof.
  intros Hlast Hmode. unfold handleNext.
  apply Nat.ltb_nlt in Hlast. by rewrite Hlast, Hmode.
Qed.

Lemma handleNext_last_practiceTest s g :
  ¬ currentIndex s + 1 < length (deck s) → mode s = practiceTest →
  handleNext allSources s g = (setShowSummary true s, g).
Proof.
  intros Hlast Hmode. unfold handleNext.
  apply Nat.ltb_nlt in Hlast. by rewrite Hlast, Hmode.
Qed.

End HandleNextFacts.

Section SessionFacts.
Variable allSources : list FlashcardSource.

(** In a practice test the effect of lines 168-175 returns at once. *)
Lemma afterRender_practiceTest before after g :
  mode after = practiceTest → afterRender allSources before after g = (after, g).
Proof.
  intros Hmode. unfold afterRender, studyEffect. rewrite Hmode.
  by case_decide.
Qed.

(** The sample of [startPracticeTest] under the random source [g]. *)
Definition sampleSources (g : Rand) : list FlashcardSource :=
  take (PRACTICE_TEST_SIZE `min` length allSources) (shuffleArray allSources g).1.

Lemma sampleSources_length g :
  length (sampleSources g) = PRACTICE_TEST_SIZE `min` length allSources.
Proof.
  unfold sampleSources. rewrite length_take, shuffleArray_length. lia.
Qed.

Lemma sampleSources_submseteq g : sampleSources g ⊆+ allSources.
Proof.
  unfold sampleSources. etrans; [apply submseteq_take|].
  by rewrite shuffleArray_Permutation.
Qed.

Lemma pressStartPracticeTest_eq s g :
  let g1 := (shuffleArray allSources g).2 in
  let built := buildDeck (sampleSources g) allSources g1 in
  pressStartPracticeTest allSources s g
  = (mkApp (theme s) (activeCategory s) practiceTest built.1 0 None 0 false,
     built.2).
Proof.
  cbv zeta. unfold pressStartPracticeTest. rewrite Gen_bind_fst.
  rewrite afterRender_practiceTest by done. done.
Qed.

End SessionFacts.

(** ** The theme preference *)

Lemma getPreferredTheme_window w :
  getPreferredTheme (Some w)
  = Returned (specifiedTheme (readablePreference w) (systemSignal w)).
Proof.
  unfold getPreferredTheme, specifiedTheme, readablePreference, systemSignal, getItem.
  destruct (readable (localStorage w)); simpl.
  - repeat case_decide; simpl; try done;
      destruct (matchMedia w) as [query|]; simpl; try done;
      by destruct (query _).
  - destruct (matchMedia w) as [query|]; simpl; try done.
    by destruct (query _).
Qed.

Lemma themeEffect_returns t w :
  ∃ w', themeEffect t w = Returned w'
        ∧ matchMedia w' = matchMedia w
        ∧ readable (localStorage w') = readable (localStorage w)
        ∧ writable (localStorage w') = writable (localStorage w)
        ∧ (writable (localStorage w) = false → localStorage w' = localStorage w).
Proof.
  unfold themeEffect, setItem.
  destruct (documentElement w) as [classList|]; simpl.
  - destruct (writable (localStorage w)) eqn:Hw; simpl; eexists; split_and!; done.
  - eexists. split_and!; done.
Qed.

(** C9: the startup theme is the stored preference when it is "light" or
    "dark", otherwise dark or light as the system signal says, otherwise
    light; when the storage cannot be read the theme is the one of the
    system signal or light, and neither a failed read nor a failed write
    makes [getPreferredTheme] or the theme effect throw. *)
Theorem theme_preference_fallback (window : option Window) (w : Window) (t : Theme) :
  (getPreferredTheme (Some w)
   = Returned (specifiedTheme (readablePreference w) (systemSignal w)))
  ∧ getPreferredTheme None = Returned light
  ∧ (∃ chosen, getPreferredTheme window = Returned chosen)
  ∧ (readable (localStorage w) = false →
     getPreferredTheme (Some w) = Returned (specifiedTheme None (systemSignal w)))
  ∧ (∃ w', themeEffect t w = Returned w'
           ∧ (writable (localStorage w) = false → localStorage w' = localStorage w)).
Proof.
  split_and!.
  - apply getPreferredTheme_window.
  - done.
  - destruct window as [w0|]; [|by eexists].
    rewrite getPreferredTheme_window. by eexists.
  - intros Hr. rewrite getPreferredTheme_window. unfold readablePreference.
    by rewrite Hr.
  - destruct (themeEffect_returns t w) as (w' & Hw' & _ & _ & _ & Hkeep).
    by exists w'.
Qed.

(** A browser that refuses every access to the storage and reports a dark
    colour scheme. *)
Definition lockedWindow : Window :=
  mkWindow (mkStorage {[ "pt-theme" := "light" ]} false false)
           (Some (λ query, bool_decide (query = "(prefers-color-scheme: dark)")))
           (Some ["theme-light"]).

Lemma theme_preference_fallback_witness :
  readable (localStorage lockedWindow) = false
  ∧ getPreferredTheme (Some lockedWindow) = Returned dark
  ∧ ∃ w', themeEffect dark lockedWindow = Returned w'
          ∧ localStorage w' = localStorage lockedWindow.
Proof.
  destruct (theme_preference_fallback (Some lockedWindow) lockedWindow dark)
    as (_ & _ & _ & Hread & w' & Hw' & Hkeep).
  split_and!; [reflexivity|exact (Hread eq_refl)|].
  exists w'. split; [exact Hw'|exact (Hkeep eq_refl)].
Defined.

(** ** The practice-test summary *)

(** The summary of [K] correct answers on a deck of [N] cards. *)
Definition summaryCounts (K N : nat) : Summary :=
  summaryOf (mkApp light CATEGORY_ALL practiceTest
               (replicate N stopCard) 0 None K false).

(** What the spec says of the summary of [K] correct answers on [N] cards:
    the pass flag, and the three counts shown. *)
Definition summaryAsSpecified (K N : nat) (sm : Summary) : Prop :=
  passed sm = bool_decide (80 ≤ roundedPercent K N)%Z
  ∧ shownCorrect sm = Z.of_nat K
  ∧ shownIncorrect sm = (Z.of_nat N - Z.of_nat K)%Z
  ∧ shownTotal sm = Z.of_nat N.

#[global] Instance summaryAsSpecified_dec K N sm : Decision (summaryAsSpecified K N sm).
Proof. unfold summaryAsSpecified. apply _. Defined.

Lemma summaryOf_counts s : summaryOf s = summaryCounts (correctCount s) (length (deck s)).
Proof.
  unfold summaryCounts, summaryOf. cbn [deck correctCount].
  by rewrite length_replicate.
Qed.

(** Every deck of 1 to 50 cards and every count of correct answers on it,
    by evaluation of the floating-point operations. *)
Definition summariesAgree : bool :=
  forallb
    (λ N, forallb
            (λ K, bool_decide (summaryAsSpecified K N (summaryCounts K N)))
            (seq 0 (S N)))
    (seq 1 PRACTICE_TEST_SIZE).

Lemma summariesAgree_true : summariesAgree = true.
Proof. vm_compute. reflexivity. Qed.

Lemma summaryCounts_specified K N :
  1 ≤ N ≤ PRACTICE_TEST_SIZE → K ≤ N →
  summaryAsSpecified K N (summaryCounts K N).
Proof.
  intros HN HK. pose proof summariesAgree_true as H.
  unfold summariesAgree in H. rewrite forallb_forall in H.
  specialize (H N). rewrite in_seq in H.
  specialize (H ltac:(unfold PRACTICE_TEST_SIZE in *; lia)).
  rewrite forallb_forall in H. specialize (H K). rewrite in_seq in H.
  specialize (H ltac:(lia)). by apply bool_decide_eq_true in H.
Qed.

(** The percentage shown is computed in floating point: 23 of 40 is shown
    as 57%, the quotient 0.575 times 100 being just below 57.5. *)
Example scorePercent_23_of_40 :
  scorePercent (summaryCounts 23 40) = Some 57%Z ∧ roundedPercent 23 40 = 58%Z.
Proof. vm_compute. done. Qed.

Lemma correctClicks_le cards clicks : correctClicks cards clicks ≤ length cards.
Proof.
  revert clicks. induction cards as [|card cards IH]; intros [|c clicks]; simpl; try lia.
  specialize (IH clicks). case_decide; lia.
Qed.

Section AnswerAllFacts.
Variable allSources : list FlashcardSource.

(** One card of a practice test: a click, then "next". *)
Lemma answerAll_practiceTest clicks s g :
  mode s = practiceTest → selectedOption s = None →
  clicks ≠ [] → currentIndex s + length clicks = length (deck s) →
  ∃ s',
    answerAll allSources clicks s g = (Some s', g)
    ∧ mode s' = practiceTest ∧ showSummary s' = true ∧ deck s' = deck s
    ∧ correctCount s'
      = correctCount s + correctClicks (drop (currentIndex s) (deck s)) clicks.
Proof.
  revert s. induction clicks as [|optionIndex clicks IH]; intros s Hmode Hsel Hne Hlen;
    [done|].
  simpl in Hlen.
  destruct (lookup_lt_is_Some_2 (deck s) (currentIndex s) ltac:(lia)) as [card Hcard].
  pose proof (handleOptionClick_practiceTest s optionIndex card Hsel Hmode Hcard) as Hs1.
  set (s1 := setCorrectCount _ _) in Hs1.
  cbn [answerAll]. rewrite Hs1, Gen_bind_fst.
  assert (mode s1 = practiceTest ∧ deck s1 = deck s ∧ currentIndex s1 = currentIndex s)
    as (Hmode1 & Hdeck1 & Hidx1) by done.
  rewrite (drop_S _ _ _ Hcard). cbn [correctClicks].
  assert (correctCount s1
          = correctCount s
            + (if decide (optionIndex = Question.answerIndex card) then 1 else 0))
    as Hcount by done.
  pose proof (handleNext_more allSources s1 g) as Hmore.
  pose proof (handleNext_last_practiceTest allSources s1 g) as Hlast.
  destruct clicks as [|c clicks].
  - rewrite Hlast by (rewrite ?Hdeck1, ?Hidx1; simpl in *; done || lia).
    cbn [answerAll fst snd]. eexists. split; [done|].
    cbn [mode showSummary deck correctCount setShowSummary].
    split_and!; try done. rewrite Hcount. destruct (drop _ _); simpl; lia.
  - rewrite Hmore by (rewrite Hdeck1, Hidx1; simpl in *; lia).
    cbn [fst snd].
    edestruct (IH (setSelectedOption None (setCurrentIndex (currentIndex s1 + 1) s1)))
      as (s' & Hs' & Hm' & Hsum' & Hdeck' & Hcount'); [done..| |].
    { cbn [currentIndex deck setSelectedOption setCurrentIndex].
      rewrite Hdeck1, Hidx1. simpl in *. lia. }
    exists s'. split; [done|]. split; [done|]. split; [done|].
    split; [by rewrite Hdeck'|].
    rewrite Hcount'.
    cbn [currentIndex deck correctCount setSelectedOption setCurrentIndex].
    rewrite Hdeck1, Hidx1, Hcount. rewrite Nat.add_1_r. lia.
Qed.

End AnswerAllFacts.

(** C6: a practice test of [N] cards answered to the end, with [K] clicks
    on the correct option, shows the summary; the summary says "pass"
    exactly when round(100*K/N) >= 80 and shows [K] correct, [N-K]
    incorrect and [N] in total. *)
Theorem practiceTest_summary
    (allSources : list FlashcardSource) (s : AppState) (g : Rand)
    (clicks : list nat) :
  allSources ≠ [] →
  let start := pressStartPracticeTest allSources s g in
  let N := length (deck start.1) in
  let K := correctClicks (deck start.1) clicks in
  length clicks = N →
  ∃ final,
    answerAll allSources clicks start.1 start.2 = (Some final, start.2)
    ∧ correctCount final = K
    ∧ render final = SummaryScreen (summaryOf final)
    ∧ (passed (summaryOf final) = true ↔ (80 ≤ roundedPercent K N)%Z)
    ∧ shownCorrect (summaryOf final) = Z.of_nat K
    ∧ shownIncorrect (summaryOf final) = (Z.of_nat N - Z.of_nat K)%Z
    ∧ shownTotal (summaryOf final) = Z.of_nat N.
Proof.
  intros Hbank. cbv zeta. rewrite pressStartPracticeTest_eq. cbv zeta.
  cbn [fst snd deck].
  set (g1 := (shuffleArray allSources g).2).
  set (built := buildDeck (sampleSources allSources g) allSources g1).
  intros Hclicks.
  assert (length built.1 = PRACTICE_TEST_SIZE `min` length allSources) as Hlen.
  { unfold built. rewrite buildDeck_length. apply sampleSources_length. }
  assert (1 ≤ length built.1 ≤ PRACTICE_TEST_SIZE) as Hrange.
  { rewrite Hlen. unfold PRACTICE_TEST_SIZE.
    destruct allSources; [done|]. simpl length. lia. }
  set (s0 := mkApp (theme s) (activeCategory s) practiceTest built.1 0 None 0 false).
  destruct (answerAll_practiceTest allSources clicks s0 built.2)
    as (final & Hrun & Hmode & Hshow & Hdeck & Hcount); try done.
  { intros ->. simpl in Hclicks. lia. }
  cbn [deck correctCount currentIndex s0] in Hdeck, Hcount.
  rewrite drop_0 in Hcount. simpl in Hcount.
  exists final. split; [done|]. split; [done|].
  assert (render final = SummaryScreen (summaryOf final)) as Hrender.
  { unfold render. rewrite Hdeck, Hmode, Hshow.
    destruct built.1; [simpl in Hrange; lia|done]. }
  split; [done|].
  pose proof (correctClicks_le built.1 clicks) as HK.
  destruct (summaryCounts_specified _ _ Hrange HK) as (Hp & Hc & Hi & Ht).
  rewrite summaryOf_counts, Hdeck, Hcount.
  split_and!; [|done..].
  rewrite Hp. apply bool_decide_eq_true.
Qed.

(** * Further properties of the code *)

(** ** [shuffleArray]: the draws it takes and the orders it can give *)

Section ShuffleMore.
Context {A : Type}.
Implicit Types (draft target xs ys : list A) (index : nat).

Lemma shuffleFrom_draws index draft g :
  (shuffleFrom index draft g).2 = drop index g.
Proof.
  revert draft g. induction index as [|index IH]; intros draft g; [done|].
  simpl. rewrite Gen_bind_fst, IH. destruct g as [|r g]; simpl; [|done].
  by rewrite drop_nil.
Qed.

Lemma swap_drop draft i j n :
  i < n → j < n → drop n (swap draft i j) = drop n draft.
Proof.
  intros Hi Hj. unfold swap.
  destruct (draft !! i) as [x|] eqn:Ei; [|done].
  destruct (draft !! j) as [y|] eqn:Ej; [|done].
  apply list_eq. intros k. rewrite !lookup_drop.
  rewrite !list_lookup_insert_ne by lia. done.
Qed.

Lemma swap_lookup_l draft i j y :
  i < length draft → draft !! j = Some y → swap draft i j !! i = Some y.
Proof.
  intros Hi Hj. rewrite swap_lookup by (done || by eapply lookup_lt_Some).
  unfold transpose. by rewrite decide_True.
Qed.

(** A script that leads the loop to a given order of the elements. *)
Lemma shuffleFrom_reaches index draft target :
  index < length draft ∨ index = 0 →
  draft ≡ₚ target →
  drop (S index) draft = drop (S index) target →
  ∃ g, (shuffleFrom index draft g).1 = target.
Proof.
  revert draft. induction index as [|index IH]; intros draft Hlen Hperm Hdrop.
  - exists []. simpl.
    destruct draft as [|a draft], target as [|b target]; simpl in *;
      try done; try (by apply Permutation_length in Hperm).
    rewrite !drop_0 in Hdrop. subst target.
    change (a :: draft) with ([a] ++ draft) in Hperm.
    change (b :: draft) with ([b] ++ draft) in Hperm.
    apply Permutation_app_inv_r, Permutation_singleton_inj in Hperm.
    by subst.
  - destruct Hlen as [Hlen|?]; [|done].
    assert (length target = length draft) as Hlt
      by (symmetry; by apply Permutation_length).
    destruct (lookup_lt_is_Some_2 target (S index) ltac:(lia)) as [y Hy].
    assert (take (S (S index)) draft ≡ₚ take (S (S index)) target) as Htake.
    { apply (Permutation_app_inv_r (drop (S (S index)) draft)).
      rewrite take_drop. rewrite Hdrop, take_drop. done. }
    assert (y ∈ take (S (S index)) draft) as Hin.
    { rewrite Htake. apply elem_of_take. exists (S index). split; [done|lia]. }
    apply elem_of_take in Hin as (k & Hk & Hklt).
    set (d' := swap draft (S index) k).
    destruct (IH d') as [g Hg].
    + left. unfold d'. rewrite length_swap. lia.
    + unfold d'. by rewrite swap_Permutation.
    + rewrite (drop_S d' y (S index)) by (by apply swap_lookup_l).
      rewrite (drop_S target y (S index) Hy).
      unfold d'. rewrite swap_drop by lia. by rewrite Hdrop.
    + exists (k :: g). cbn [shuffleFrom]. rewrite Gen_bind_fst.
      change (randomIndex (S index + 1) (k :: g)) with (k mod (S index + 1), g).
      cbn [fst snd]. rewrite Nat.mod_small by lia. done.
Qed.

End ShuffleMore.

(** X1: [shuffleArray] calls [Math.random] once for every element but the
    first: of the draws to come it takes [length - 1], none for an empty or
    a one-element array. *)
Theorem shuffleArray_draws {A : Type} (input : list A) (g : Rand) :
  (shuffleArray input g).2 = drop (length input - 1) g
  ∧ (length input ≤ 1 → shuffleArray input g = (input, g)).
Proof.
  split; [apply shuffleFrom_draws|].
  intros Hlen. destruct input as [|a [|b input]]; simpl in Hlen; [done..|lia].
Qed.

Lemma shuffleArray_draws_witness :
  shuffleArray ["only"] [5; 7] = (["only"], [5; 7]).
Proof.
  apply (shuffleArray_draws ["only"] [5; 7]). simpl. lia.
Defined.

(** X2: every order of the elements can come out of [shuffleArray]: for
    each permutation of the input there are outcomes of [Math.random] under
    which it is the result. *)
Theorem shuffleArray_reaches_every_order {A : Type} (input target : list A) :
  input ≡ₚ target → ∃ g, (shuffleArray input g).1 = target.
Proof.
  intros Hperm. apply shuffleFrom_reaches; [|done|].
  - destruct input; simpl; lia.
  - rewrite !drop_ge; [done| |lia].
    apply Permutation_length in Hperm. lia.
Qed.

Lemma shuffleArray_reaches_every_order_witness :
  ["a"; "b"; "c"] ≡ₚ ["c"; "a"; "b"]
  ∧ ∃ g, (shuffleArray ["a"; "b"; "c"] g).1 = ["c"; "a"; "b"].
Proof.
  assert (["a"; "b"; "c"] ≡ₚ ["c"; "a"; "b"]) as H.
  { change ["a"; "b"; "c"] with (["a"; "b"] ++ ["c"]).
    apply Permutation_app_comm. }
  split; [exact H|]. exact (shuffleArray_reaches_every_order _ _ H).
Defined.

(** ** [buildOptions]: where the options come from, and how many *)

(** The curated distractors of a source, none when the list is absent. *)
Definition curatedOf (source : FlashcardSource) : list string :=
  default [] (Source.distractors source).

(** Every string [buildOptions] may offer to [addCandidate]. *)
Definition candidatesOf (source : FlashcardSource)
    (categoryPool globalPool : list FlashcardSource) : list string :=
  curatedOf source ++ otherAnswers source categoryPool
  ++ otherAnswers source globalPool.

#[global] Instance admitted_dec source candidate : Decision (admitted source candidate).
Proof. unfold admitted, same_folded. apply _. Defined.

(** The distinct trimmed forms of the candidates [addCandidate] admits. *)
Definition admittedTrims (source : FlashcardSource)
    (categoryPool globalPool : list FlashcardSource) : list string :=
  remove_dups
    (trim <$> filter (admitted source) (candidatesOf source categoryPool globalPool)).

(** A pool holds three admitted candidates that differ once trimmed. *)
Definition threeAdmitted (source : FlashcardSource) (pool : list string) : Prop :=
  ∃ a b c,
    a ∈ pool ∧ b ∈ pool ∧ c ∈ pool
    ∧ trim a ≠ trim b ∧ trim a ≠ trim c ∧ trim b ≠ trim c
    ∧ admitted source a ∧ admitted source b ∧ admitted source c.

(** The guarded calls of [fillFromAnswers] (lines 70-76). *)
Definition guardedFill (source : FlashcardSource) (pool : list string)
    (distractorSet : list string) : Gen (list string) :=
  if length distractorSet <? desiredOptionCount - 1
  then fillFromAnswers source pool distractorSet
  else mret distractorSet.

(** Lines 47-51. *)
Definition curatedSet (source : FlashcardSource) : Gen (list string) :=
  match Source.distractors source with
  | Some ((_ :: _) as items) =>
      shuffled ← shuffleArray items;
      mret (addCurated source shuffled [])
  | _ => mret []
  end.

Section OptionMore.
Variable source : FlashcardSource.

(** The trimmed form of an admitted candidate of a pool. *)
Definition fromPool (P : string → Prop) (d : string) : Prop :=
  ∃ c, P c ∧ admitted source c ∧ d = trim c.

(** The set is full, or every admitted candidate of the pool is in it. *)
Definition exhausts (pool : list string) (r : list string) : Prop :=
  3 ≤ length r ∨ ∀ c, c ∈ pool → admitted source c → trim c ∈ r.

Lemma fromPool_weaken (P Q : string → Prop) s :
  (∀ c, P c → Q c) → Forall (fromPool P) s → Forall (fromPool Q) s.
Proof.
  intros HPQ Hs. eapply Forall_impl; [exact Hs|].
  intros d (c & Hc & Ha & ->). exists c. auto.
Qed.

Lemma addCandidate_from P candidate s :
  P candidate → Forall (fromPool P) s →
  Forall (fromPool P) (addCandidate source candidate s).
Proof.
  intros HP Hs.
  destruct (addCandidate_cases source candidate s) as [[Ha ->]|[_ ->]]; [|done].
  apply Forall_forall. intros x [->|Hx]%Set_add_elem.
  - by exists candidate.
  - by eapply Forall_forall in Hs.
Qed.

Lemma addCurated_from P shuffled s :
  (∀ c, c ∈ shuffled → P c) → Forall (fromPool P) s →
  Forall (fromPool P) (addCurated source shuffled s).
Proof.
  revert s. induction shuffled as [|item rest IH]; intros s HP Hs; [done|].
  rewrite addCurated_cons. apply IH.
  - intros c Hc. apply HP. by right.
  - destruct (length s <? 3); [|done]. apply addCandidate_from; [|done].
    apply HP. by left.
Qed.

Lemma addCurated_mono shuffled s x : x ∈ s → x ∈ addCurated source shuffled s.
Proof.
  revert s. induction shuffled as [|item rest IH]; intros s Hx; [done|].
  rewrite addCurated_cons. apply IH.
  destruct (length s <? 3); [by apply addCandidate_mono|done].
Qed.

Lemma addCurated_length shuffled s : length s ≤ length (addCurated source shuffled s).
Proof.
  revert s. induction shuffled as [|item rest IH]; intros s; [done|].
  rewrite addCurated_cons. etrans; [|apply IH].
  destruct (length s <? 3); [apply addCandidate_length|done].
Qed.

Lemma addCurated_exhausts shuffled s : exhausts shuffled (addCurated source shuffled s).
Proof.
  revert s. induction shuffled as [|item rest IH]; intros s.
  { right. intros c Hc. by apply elem_of_nil in Hc. }
  rewrite addCurated_cons.
  destruct (length s <? 3) eqn:E.
  - destruct (IH (addCandidate source item s)) as [?|Hall]; [by left|].
    right. intros c [->|Hc]%elem_of_cons Ha; [|by apply Hall].
    by apply addCurated_mono, addCandidate_admits.
  - left. apply Nat.ltb_ge in E. etrans; [exact E|apply addCurated_length].
Qed.

Lemma fillLoop_from P shuffled s :
  (∀ c, c ∈ shuffled → P c) → Forall (fromPool P) s →
  Forall (fromPool P) (fillLoop source shuffled s).
Proof.
  revert s. induction shuffled as [|candidate rest IH]; intros s HP Hs; [done|].
  rewrite fillLoop_cons. destruct (3 <=? length s); [done|].
  apply IH.
  - intros c Hc. apply HP. by right.
  - apply addCandidate_from; [|done]. apply HP. by left.
Qed.

Lemma fillLoop_grows shuffled s : length s ≤ length (fillLoop source shuffled s).
Proof.
  revert s. induction shuffled as [|candidate rest IH]; intros s; [done|].
  rewrite fillLoop_cons. destruct (3 <=? length s); [done|].
  etrans; [|apply IH]. apply addCandidate_length.
Qed.

Lemma guardedFill_full pool s g :
  3 ≤ length s → guardedFill source pool s g = (s, g).
Proof.
  intros Hfull. unfold guardedFill. apply Nat.ltb_ge in Hfull.
  change (desiredOptionCount - 1) with 3. by rewrite Hfull.
Qed.

Lemma guardedFill_from P pool s g :
  (∀ c, c ∈ pool → P c) → Forall (fromPool P) s →
  Forall (fromPool P) (guardedFill source pool s g).1.
Proof.
  intros HP Hs. unfold guardedFill, fillFromAnswers.
  destruct (length s <? _); [|done].
  destruct pool as [|a pool]; [done|].
  rewrite Gen_bind_fst. cbn [fst mret Gen_ret]. apply fillLoop_from; [|done].
  intros c Hc. apply HP. by apply shuffleArray_elem in Hc.
Qed.

Lemma guardedFill_mono pool s g x : x ∈ s → x ∈ (guardedFill source pool s g).1.
Proof.
  intros Hx. unfold guardedFill, fillFromAnswers.
  destruct (length s <? _); [|done].
  destruct pool as [|a pool]; [done|].
  rewrite Gen_bind_fst. cbn [fst mret Gen_ret]. by apply fillLoop_mono.
Qed.

Lemma guardedFill_grows pool s g : length s ≤ length (guardedFill source pool s g).1.
Proof.
  unfold guardedFill, fillFromAnswers.
  destruct (length s <? _); [|done].
  destruct pool as [|a pool]; [done|].
  rewrite Gen_bind_fst. cbn [fst mret Gen_ret]. apply fillLoop_grows.
Qed.

Lemma guardedFill_exhausts pool s g : exhausts pool (guardedFill source pool s g).1.
Proof. apply guarded_fill_complete. Qed.

(** A later call keeps what an earlier one has reached. *)
Lemma guardedFill_keeps earlier pool s g :
  exhausts earlier s → exhausts (earlier ++ pool) (guardedFill source pool s g).1.
Proof.
  intros [Hfull|Hall].
  { left. etrans; [exact Hfull|apply guardedFill_grows]. }
  destruct (guardedFill_exhausts pool s g) as [?|Hnew]; [by left|].
  right. intros c [Hc|Hc]%elem_of_app Ha.
  - by apply guardedFill_mono, Hall.
  - by apply Hnew.
Qed.

Lemma exhausts_three pool r :
  NoDup r → length r ≤ 3 → exhausts pool r → threeAdmitted source pool →
  length r = 3.
Proof.
  intros Hnd Hlen [Hfull|Hall] (a & b & c & Ha & Hb & Hc & Hab & Hac & Hbc & Aa & Ab & Ac);
    [lia|].
  assert ([trim a; trim b; trim c] ⊆+ r) as Hsub.
  { apply NoDup_submseteq.
    - apply NoDup_cons_2; [rewrite !not_elem_of_cons; split_and!; [done..|apply not_elem_of_nil]|].
      apply NoDup_cons_2; [rewrite !not_elem_of_cons; split_and!; [done|apply not_elem_of_nil]|].
      apply NoDup_singleton.
    - intros x Hx. rewrite !elem_of_cons in Hx.
      destruct Hx as [->|[->|[->|Hx]]]; [by apply Hall..|].
      by apply elem_of_nil in Hx. }
  apply submseteq_length in Hsub. simpl in Hsub. lia.
Qed.

Lemma curatedSet_ok g :
  setOk source (curatedSet source g).1 ∧ withinCount (curatedSet source g).1.
Proof. apply curated_ok. Qed.

Lemma curatedSet_from g :
  Forall (fromPool (λ c, c ∈ curatedOf source)) (curatedSet source g).1.
Proof.
  unfold curatedSet, curatedOf.
  destruct (Source.distractors source) as [[|item items]|]; try apply Forall_nil_2.
  rewrite Gen_bind_fst. cbn [fst mret Gen_ret default].
  apply addCurated_from; [|apply Forall_nil_2].
  intros c Hc. apply shuffleArray_elem in Hc. exact Hc.
Qed.

Lemma curatedSet_exhausts g : exhausts (curatedOf source) (curatedSet source g).1.
Proof.
  unfold curatedSet, curatedOf.
  destruct (Source.distractors source) as [[|item items]|];
    try (right; intros c Hc; by apply elem_of_nil in Hc).
  rewrite Gen_bind_fst. cbn [fst mret Gen_ret default].
  destruct (addCurated_exhausts (shuffleArray (item :: items) g).1 []) as [?|Hall];
    [by left|].
  right. intros c Hc. apply Hall. by apply shuffleArray_elem.
Qed.

Variables categoryPool globalPool : list FlashcardSource.

Lemma collected_stages g :
  collected source categoryPool globalPool g
  = let r1 := curatedSet source g in
    let r2 := guardedFill source (otherAnswers source categoryPool) r1.1 r1.2 in
    guardedFill source (otherAnswers source globalPool) r2.1 r2.2.
Proof. done. Qed.

Lemma collected_from g :
  Forall (fromPool (λ c, c ∈ candidatesOf source categoryPool globalPool))
    (collected source categoryPool globalPool g).1.
Proof.
  rewrite collected_stages. cbv zeta. unfold candidatesOf.
  apply guardedFill_from; [intros c Hc; rewrite !elem_of_app; tauto|].
  apply guardedFill_from; [intros c Hc; rewrite !elem_of_app; tauto|].
  eapply fromPool_weaken; [|apply curatedSet_from].
  intros c Hc. rewrite !elem_of_app. tauto.
Qed.

Lemma collected_exhausts g :
  exhausts (candidatesOf source categoryPool globalPool)
    (collected source categoryPool globalPool g).1.
Proof.
  rewrite collected_stages. cbv zeta. unfold candidatesOf.
  rewrite app_assoc. apply guardedFill_keeps, guardedFill_keeps, curatedSet_exhausts.
Qed.

Lemma collected_length g :
  length (collected source categoryPool globalPool g).1
  = 3 `min` length (admittedTrims source categoryPool globalPool).
Proof.
  destruct (collected_ok source categoryPool globalPool g) as [[Hnd _] Hlen].
  unfold withinCount in Hlen. change (desiredOptionCount - 1) with 3 in Hlen.
  pose proof (collected_from g) as Hfrom. rewrite Forall_forall in Hfrom.
  set (ds := (collected source categoryPool globalPool g).1) in *.
  assert (∀ d, d ∈ ds → d ∈ admittedTrims source categoryPool globalPool) as Hsub.
  { intros d (c & Hc & Ha & ->)%Hfrom. unfold admittedTrims.
    apply elem_of_remove_dups, list_elem_of_fmap_2, list_elem_of_filter. done. }
  pose proof (submseteq_length _ _ (NoDup_submseteq _ _ Hnd Hsub)) as Hle.
  destruct (collected_exhausts g) as [Hfull|Hall]; fold ds in Hfull || fold ds in Hall.
  { lia. }
  assert (ds ≡ₚ admittedTrims source categoryPool globalPool) as Hperm.
  { apply NoDup_Permutation; [done|apply NoDup_remove_dups|].
    intros d. split; [apply Hsub|]. unfold admittedTrims.
    intros (c & -> & (Ha & Hc)%list_elem_of_filter)%elem_of_remove_dups%list_elem_of_fmap_1.
    by apply Hall. }
  apply Permutation_length in Hperm. lia.
Qed.

End OptionMore.

(** X3: [buildOptions] makes up no option: each one is the answer of the
    source, or the trimmed form of a curated distractor of the source or of
    the answer of another record of the two pools, and then neither blank
    nor equal to the answer without regard to case. *)
Theorem buildOptions_provenance
    (source : FlashcardSource) (categoryPool globalPool : list FlashcardSource)
    (g : Rand) :
  Forall
    (λ option,
       option = Source.answer source
       ∨ ∃ candidate,
           candidate ∈ candidatesOf source categoryPool globalPool
           ∧ option = trim candidate
           ∧ option ≠ ""
           ∧ ¬ same_folded option (Source.answer source))
    (buildOptions source categoryPool globalPool g).1.1.
Proof.
  rewrite buildOptions_collected. apply Forall_forall. intros o Ho.
  rewrite finished_Permutation in Ho.
  apply elem_of_cons in Ho as [->|Ho]; [by left|]. right.
  apply elem_of_take in Ho as (i & Hi & _). apply list_elem_of_lookup_2 in Hi.
  pose proof (collected_from source categoryPool globalPool g) as Hfrom.
  rewrite Forall_forall in Hfrom.
  destruct (Hfrom o Hi) as (c & Hc & [Hblank Hsame] & ->).
  exists c. split_and!; [done..|].
  unfold same_folded in *. by rewrite trim_idem.
Qed.

(** X4: the number of options is one more than the number of distinct
    trimmed candidates [addCandidate] admits among the curated distractors
    and the answers of both pools, and at most four. *)
Theorem buildOptions_count
    (source : FlashcardSource) (categoryPool globalPool : list FlashcardSource)
    (g : Rand) :
  length (buildOptions source categoryPool globalPool g).1.1
  = S (3 `min` length (admittedTrims source categoryPool globalPool)).
Proof.
  rewrite buildOptions_collected, finished_length, collected_length. lia.
Qed.

(** No two candidates that [addCandidate] admits differ by case only: two
    of them that are equal once trimmed and case-folded are equal once
    trimmed. *)
Definition caseClean (source : FlashcardSource) (candidates : list string) : Prop :=
  ∀ a b, a ∈ candidates → b ∈ candidates →
         admitted source a → admitted source b →
         same_folded a b → trim a = trim b.

Lemma folded_trim c : folded (trim c) = folded c.
Proof. unfold folded. by rewrite trim_idem. Qed.

Lemma finished_distinctFolded source categoryPool globalPool g :
  caseClean source (candidatesOf source categoryPool globalPool) →
  distinctFolded
    (finished source (collected source categoryPool globalPool g).1
       (collected source categoryPool globalPool g).2).1.1.
Proof.
  intros Hclean. unfold distinctFolded. rewrite finished_Permutation, fmap_cons.
  pose proof (collected_from source categoryPool globalPool g) as Hfrom.
  rewrite Forall_forall in Hfrom.
  destruct (collected_ok source categoryPool globalPool g) as [[Hnd _] _].
  set (ds := (collected source categoryPool globalPool g).1) in *.
  assert (∀ d, d ∈ take 3 ds → d ∈ ds) as Htake.
  { intros d (i & Hi & _)%elem_of_take. by eapply list_elem_of_lookup_2. }
  apply NoDup_cons_2.
  - intros (d & Hd & Hin)%list_elem_of_fmap.
    destruct (Hfrom d (Htake d Hin)) as (c & _ & [_ Hsame] & ->).
    apply Hsame. unfold same_folded. rewrite folded_trim in Hd. by symmetry.
  - apply NoDup_fmap_2_strong.
    + intros x y Hx Hy Hxy.
      destruct (Hfrom x (Htake x Hx)) as (a & Ha & Aa & ->).
      destruct (Hfrom y (Htake y Hy)) as (b & Hb & Ab & ->).
      rewrite !folded_trim in Hxy. by apply Hclean.
    + eapply sublist_NoDup; [exact Hnd|apply sublist_take].
Qed.

(** C2, amended: when the bank holds three records other than the source
    whose answers are not blank and differ from each other and from the
    answer of the source without regard to case and surrounding white
    space, [buildOptions] returns exactly 4 options, exactly one of which
    equals the answer without regard to case and surrounding white space,
    with [answerIndex] pointing at it; and when no two admitted candidates
    differ by case only, no two of the 4 options are equal once trimmed and
    case-folded. *)
Theorem buildOptions_four_options
    (source : FlashcardSource) (categoryPool globalPool : list FlashcardSource)
    (g : Rand) :
  threeAdmittedAnswers source globalPool →
  let r := (buildOptions source categoryPool globalPool g).1 in
  length r.1 = 4
  ∧ pointsAtAnswer (Source.answer source) r.1 r.2
  ∧ (caseClean source (candidatesOf source categoryPool globalPool) →
     distinctFolded r.1).
Proof.
  intros Hthree. cbv zeta. rewrite buildOptions_collected. split_and!.
  - rewrite finished_length, (collected_full _ _ _ _ Hthree). done.
  - apply finished_pointsAtAnswer, collected_ok.
  - apply finished_distinctFolded.
Qed.

(** X22: on every input, exactly one option of [buildOptions] equals the
    answer without regard to case and surrounding white space, and
    [answerIndex] points at it; no two options are equal once trimmed; when
    no two admitted candidates differ by case only, no two options are
    equal once trimmed and case-folded; and every card of a deck has one
    option equal to its answer, at [answerIndex], and options that differ
    once trimmed. *)
Theorem buildOptions_card_invariant
    (source : FlashcardSource) (sources categoryPool globalPool : list FlashcardSource)
    (g : Rand) :
  (let r := (buildOptions source categoryPool globalPool g).1 in
   distinctTrimmed r.1
   ∧ pointsAtAnswer (Source.answer source) r.1 r.2
   ∧ (caseClean source (candidatesOf source categoryPool globalPool) →
      distinctFolded r.1))
  ∧ Forall cardInvariant (buildDeck sources globalPool g).1.
Proof.
  split; [|apply buildDeck_invariant].
  cbv zeta. rewrite buildOptions_collected. split_and!.
  - apply finished_distinctTrimmed, collected_ok.
  - apply finished_pointsAtAnswer, collected_ok.
  - apply finished_distinctFolded.
Qed.

Section PoolOrder.
Variable source : FlashcardSource.

Lemma curatedSet_three g :
  threeAdmitted source (curatedOf source) → length (curatedSet source g).1 = 3.
Proof.
  intros Hthree. destruct (curatedSet_ok source g) as [[Hnd _] Hlen].
  eapply exhausts_three; [done|exact Hlen|apply curatedSet_exhausts|done].
Qed.

Lemma collected_curated_only categoryPool globalPool g :
  threeAdmitted source (curatedOf source) →
  collected source categoryPool globalPool g = curatedSet source g.
Proof.
  intros Hthree. rewrite collected_stages. cbv zeta.
  pose proof (curatedSet_three g Hthree) as Hlen.
  rewrite (guardedFill_full source _ (curatedSet source g).1) by lia.
  cbn [fst snd]. rewrite guardedFill_full by lia.
  by destruct (curatedSet source g).
Qed.

Lemma categoryStage_three categoryPool g :
  threeAdmitted source (curatedOf source ++ otherAnswers source categoryPool) →
  length (guardedFill source (otherAnswers source categoryPool)
            (curatedSet source g).1 (curatedSet source g).2).1 = 3.
Proof.
  intros Hthree.
  destruct (guarded_fill_ok source (otherAnswers source categoryPool)
              (curatedSet source g).1 (curatedSet source g).2)
    as [[Hnd _] Hlen]; [apply curatedSet_ok..|].
  eapply exhausts_three; [exact Hnd|exact Hlen| |done].
  apply guardedFill_keeps, curatedSet_exhausts.
Qed.

Lemma collected_without_global categoryPool globalPool g :
  threeAdmitted source (curatedOf source ++ otherAnswers source categoryPool) →
  collected source categoryPool globalPool g
  = guardedFill source (otherAnswers source categoryPool)
      (curatedSet source g).1 (curatedSet source g).2.
Proof.
  intros Hthree. rewrite collected_stages. cbv zeta.
  pose proof (categoryStage_three categoryPool g Hthree) as Hlen.
  rewrite (guardedFill_full source (otherAnswers source globalPool)) by lia.
  by destruct (guardedFill _ _ _ _).
Qed.

End PoolOrder.

(** X5: when the curated distractors of the source hold three admitted
    candidates that differ once trimmed, the pools are not consulted: the
    result is the same whatever the two pools are, and every wrong option
    is a trimmed curated distractor. *)
Theorem buildOptions_curated_first
    (source : FlashcardSource)
    (categoryPool globalPool categoryPool' globalPool' : list FlashcardSource)
    (g : Rand) :
  threeAdmitted source (curatedOf source) →
  buildOptions source categoryPool globalPool g
  = buildOptions source categoryPool' globalPool' g
  ∧ Forall
      (λ option,
         option = Source.answer source
         ∨ ∃ candidate, candidate ∈ curatedOf source ∧ option = trim candidate)
      (buildOptions source categoryPool globalPool g).1.1.
Proof.
  intros Hthree. rewrite !buildOptions_collected.
  rewrite !(collected_curated_only source _ _ g Hthree). split; [done|].
  apply Forall_forall. intros o Ho. rewrite finished_Permutation in Ho.
  apply elem_of_cons in Ho as [->|Ho]; [by left|]. right.
  apply elem_of_take in Ho as (i & Hi & _). apply list_elem_of_lookup_2 in Hi.
  pose proof (curatedSet_from source g) as Hfrom. rewrite Forall_forall in Hfrom.
  destruct (Hfrom o Hi) as (c & Hc & _ & ->). by exists c.
Qed.

(** A source with curated distractors, one of them the answer in capitals. *)
Definition curatedSource : FlashcardSource :=
  record "A" "Yield" "Signs" (Some [" Stop "; "YIELD"; "Merge"; "Do Not Enter"]).

(** X6: when the curated distractors and the answers of the category pool
    together hold three admitted candidates that differ once trimmed, the
    global pool is not consulted: the result is the same whatever the
    global pool is, and every wrong option is a trimmed curated distractor
    or the trimmed answer of another record of the category pool. *)
Theorem buildOptions_category_before_global
    (source : FlashcardSource)
    (categoryPool globalPool globalPool' : list FlashcardSource) (g : Rand) :
  threeAdmitted source (curatedOf source ++ otherAnswers source categoryPool) →
  buildOptions source categoryPool globalPool g
  = buildOptions source categoryPool globalPool' g
  ∧ Forall
      (λ option,
         option = Source.answer source
         ∨ ∃ candidate,
             candidate ∈ curatedOf source ++ otherAnswers source categoryPool
             ∧ option = trim candidate)
      (buildOptions source categoryPool globalPool g).1.1.
Proof.
  intros Hthree. rewrite !buildOptions_collected.
  rewrite !(collected_without_global source _ _ g Hthree). split; [done|].
  apply Forall_forall. intros o Ho. rewrite finished_Permutation in Ho.
  apply elem_of_cons in Ho as [->|Ho]; [by left|]. right.
  apply elem_of_take in Ho as (i & Hi & _). apply list_elem_of_lookup_2 in Hi.
  assert (Forall (fromPool source
                    (λ c, c ∈ curatedOf source ++ otherAnswers source categoryPool))
            (guardedFill source (otherAnswers source categoryPool)
               (curatedSet source g).1 (curatedSet source g).2).1) as Hfrom.
  { apply guardedFill_from; [intros c Hc; rewrite elem_of_app; tauto|].
    eapply fromPool_weaken; [|apply curatedSet_from].
    intros c Hc. rewrite elem_of_app. tauto. }
  rewrite Forall_forall in Hfrom.
  destruct (Hfrom o Hi) as (c & Hc & _ & ->). by exists c.
Qed.

(** A bank with three other signs and a record of another category. *)
Definition mixedBank : list FlashcardSource :=
  signsBank ++ [record "E" "25 mph" "Speed" None].

(** ** [buildDeck]: what a card carries *)

(** The fields a card copies from its source (lines 94-103). *)
Definition sourceFields (source : FlashcardSource)
  : string * string * string * string * string * option string :=
  (Source.id source, Source.prompt source, Source.answer source,
   Source.reference source, Source.category source, Source.imageUrl source).

Definition cardFields (card : PermitQuestion)
  : string * string * string * string * string * option string :=
  (Question.id card, Question.prompt card, Question.answer card,
   Question.reference card, Question.category card, Question.imageUrl card).

(** The records of the pool in the category of the source (line 92). *)
Definition categoryPoolOf (globalPool : list FlashcardSource)
    (source : FlashcardSource) : list FlashcardSource :=
  filter (λ item, Source.category item = Source.category source) globalPool.

Lemma buildCard_fields globalPool source g :
  cardFields (buildCard globalPool source g).1 = sourceFields source.
Proof. done. Qed.

Lemma buildDeck_fields sources globalPool g :
  cardFields <$> (buildDeck sources globalPool g).1 ≡ₚ sourceFields <$> sources.
Proof.
  rewrite buildDeck_cards.
  assert (Forall2 (λ s c, cardFields c = sourceFields s) sources
            (mapM (buildCard globalPool) sources g).1) as H.
  { apply mapM_Gen_Forall2. intros. apply buildCard_fields. }
  induction H as [|s c ss cs Hf _ IH]; [done|].
  rewrite !fmap_cons, Hf, IH. done.
Qed.

(** Each card of a deck is the card of one of the sources. *)
Lemma buildDeck_card_origin sources globalPool g card :
  card ∈ (buildDeck sources globalPool g).1 →
  ∃ source g', source ∈ sources ∧ card = (buildCard globalPool source g').1.
Proof.
  rewrite buildDeck_cards. intros Hcard.
  assert (Forall2 (λ s c, ∃ g', c = (buildCard globalPool s g').1) sources
            (mapM (buildCard globalPool) sources g).1) as H.
  { apply mapM_Gen_Forall2. intros s g'. by exists g'. }
  apply list_elem_of_lookup_1 in Hcard as [i Hi].
  destruct (Forall2_lookup_r _ _ _ _ _ H Hi) as (s & Hs & g' & ->).
  exists s, g'. split; [by eapply list_elem_of_lookup_2|done].
Qed.

Lemma buildDeck_categories sources globalPool g c :
  Forall (λ source, Source.category source = c) sources →
  Forall (λ card, Question.category card = c) (buildDeck sources globalPool g).1.
Proof.
  intros Hall. apply Forall_forall. intros card Hcard.
  destruct (buildDeck_card_origin _ _ _ _ Hcard) as (source & g' & Hsource & ->).
  rewrite Forall_forall in Hall. by apply Hall.
Qed.

Lemma filteredSources_all allSources s :
  activeCategory s = CATEGORY_ALL → filteredSources allSources s = allSources.
Proof. intros Hall. unfold filteredSources. by rewrite decide_True. Qed.

Lemma filteredSources_category allSources s :
  activeCategory s ≠ CATEGORY_ALL →
  filteredSources allSources s
  = filter (λ item, Source.category item = activeCategory s) allSources.
Proof. intros Hall. unfold filteredSources. by rewrite decide_False. Qed.

(** What a deck built for the filter of [s] holds: with the filter "all"
    one card for each record of the bank; with another filter one card
    for each record of that category, and only cards of that category. *)
Definition deckOfFilter (allSources : list FlashcardSource)
    (value : CategoryFilterValue) (cards : list PermitQuestion) : Prop :=
  (value = CATEGORY_ALL →
   cardFields <$> cards ≡ₚ sourceFields <$> allSources)
  ∧ (value ≠ CATEGORY_ALL →
     Forall (λ card, Question.category card = value) cards
     ∧ cardFields <$> cards
       ≡ₚ sourceFields <$> filter (λ item, Source.category item = value) allSources).

Lemma buildDeck_deckOfFilter allSources s g :
  deckOfFilter allSources (activeCategory s)
    (buildDeck (filteredSources allSources s) allSources g).1.
Proof.
  split; intros Hall.
  - rewrite filteredSources_all by done. apply buildDeck_fields.
  - rewrite filteredSources_category by done. split; [|apply buildDeck_fields].
    apply buildDeck_categories, Forall_forall.
    by intros source [? _]%list_elem_of_filter.
Qed.

Lemma fields_deckOfFilter allSources s cards :
  cardFields <$> cards ≡ₚ sourceFields <$> filteredSources allSources s →
  deckOfFilter allSources (activeCategory s) cards.
Proof.
  intros Hperm. split; intros Hall.
  - by rewrite filteredSources_all in Hperm.
  - rewrite filteredSources_category in Hperm by done. split; [|done].
    apply Forall_forall. intros card Hcard.
    apply (list_elem_of_fmap_2 cardFields) in Hcard. rewrite Hperm in Hcard.
    apply list_elem_of_fmap_1 in Hcard as (source & Hfields & [Hcat _]%list_elem_of_filter).
    unfold cardFields, sourceFields in Hfields. congruence.
Qed.

(** X7: a deck carries, for each source, one card with the identifier,
    prompt, answer, reference, category and image of that source, and no
    other card. *)
Theorem buildDeck_copies_fields
    (sources globalPool : list FlashcardSource) (g : Rand) :
  cardFields <$> (buildDeck sources globalPool g).1 ≡ₚ sourceFields <$> sources.
Proof.
  rewrite buildDeck_cards.
  induction (mapM_Gen_Forall2 (buildCard globalPool)
               (λ s c, cardFields c = sourceFields s) sources g
               (λ s g', buildCard_fields globalPool s g'))
    as [|s c ss cs Hf _ IH]; [done|].
  by rewrite !fmap_cons, Hf, IH.
Qed.

Lemma categoryStage_from source categoryPool g :
  Forall (fromPool source
            (λ c, c ∈ curatedOf source ++ otherAnswers source categoryPool))
    (guardedFill source (otherAnswers source categoryPool)
       (curatedSet source g).1 (curatedSet source g).2).1.
Proof.
  apply guardedFill_from; [intros c Hc; rewrite elem_of_app; tauto|].
  eapply fromPool_weaken; [|apply curatedSet_from].
  intros c Hc. rewrite elem_of_app. tauto.
Qed.

(** X8: in a deck, the wrong options of a card stay within the card's
    category whenever they can: if the curated distractors of its source
    and the answers of the other records of its category hold three
    admitted candidates that differ once trimmed, every option of the card
    is its answer, a trimmed curated distractor, or the trimmed answer of
    another record of the same category. *)
Theorem buildDeck_options_of_own_category
    (sources globalPool : list FlashcardSource) (g : Rand) :
  Forall
    (λ card,
       ∃ source,
         source ∈ sources
         ∧ cardFields card = sourceFields source
         ∧ (threeAdmitted source
              (curatedOf source
               ++ otherAnswers source (categoryPoolOf globalPool source)) →
            Forall
              (λ option,
                 option = Question.answer card
                 ∨ ∃ candidate,
                     candidate ∈ curatedOf source
                                 ++ otherAnswers source (categoryPoolOf globalPool source)
                     ∧ option = trim candidate)
              (Question.options card)))
    (buildDeck sources globalPool g).1.
Proof.
  apply Forall_forall. intros card Hcard.
  destruct (buildDeck_card_origin _ _ _ _ Hcard) as (source & g' & Hsource & ->).
  exists source. split; [done|]. split; [done|]. intros Hthree.
  destruct (buildCard_options globalPool source g') as (-> & _ & ->).
  fold (categoryPoolOf globalPool source).
  rewrite buildOptions_collected.
  rewrite (collected_without_global source _ _ g' Hthree).
  apply Forall_forall. intros o Ho. rewrite finished_Permutation in Ho.
  apply elem_of_cons in Ho as [->|Ho]; [by left|]. right.
  apply elem_of_take in Ho as (i & Hi & _). apply list_elem_of_lookup_2 in Hi.
  pose proof (categoryStage_from source (categoryPoolOf globalPool source) g') as Hfrom.
  rewrite Forall_forall in Hfrom.
  destruct (Hfrom o Hi) as (c & Hc & _ & ->). by exists c.
Qed.

(** C5: starting or retaking a practice test builds the deck from a random
    sample of min(50, bank size) records of the whole bank, whatever the
    active category filter is: the sample is the first min(50, bank size)
    records of the shuffled bank, and for every order of the bank some
    outcome of the random draws makes the test consist of the first
    min(50, bank size) records of that order, so that every record can be
    drawn; the score is set to 0, the position to the first card and the
    selection to unset; the effect that follows the render changes
    nothing. *)
Theorem startPracticeTest_sample_and_reset
    (allSources : list FlashcardSource) (s : AppState) (g : Rand) :
  let s' := (pressStartPracticeTest allSources s g).1 in
  mode s' = practiceTest
  ∧ correctCount s' = 0 ∧ currentIndex s' = 0 ∧ selectedOption s' = None
  ∧ showSummary s' = false
  ∧ deck s'
    = (buildDeck (sampleSources allSources g) allSources
         (shuffleArray allSources g).2).1
  ∧ sampleSources allSources g ⊆+ allSources
  ∧ length (sampleSources allSources g) = 50 `min` length allSources
  ∧ length (deck s') = 50 `min` length allSources
  ∧ Question.id <$> deck s' ⊆+ Source.id <$> allSources
  ∧ (∀ filter,
       deck (pressStartPracticeTest allSources (setActiveCategory filter s) g).1
       = deck s')
  ∧ startPracticeTest allSources s g = pressStartPracticeTest allSources s g
  ∧ (∀ target,
       allSources ≡ₚ target →
       ∃ g',
         cardFields <$> deck (pressStartPracticeTest allSources s g').1
         ≡ₚ sourceFields <$> take (50 `min` length allSources) target).
Proof.
  cbv zeta. rewrite pressStartPracticeTest_eq.
  cbn [fst deck mode correctCount currentIndex selectedOption showSummary].
  split_and!; try done.
  - apply sampleSources_submseteq.
  - apply sampleSources_length.
  - rewrite buildDeck_length. apply sampleSources_length.
  - rewrite buildDeck_ids. apply fmap_submseteq, sampleSources_submseteq.
  - intros filter. by rewrite pressStartPracticeTest_eq.
  - intros target Hperm.
    destruct (shuffleFrom_reaches (length allSources - 1) allSources target)
      as [g' Hg']; [destruct allSources; simpl; lia|done| |].
    { rewrite !drop_ge; [done| |lia]. apply Permutation_length in Hperm. lia. }
    exists g'. rewrite pressStartPracticeTest_eq. cbn [fst deck].
    rewrite buildDeck_fields. unfold sampleSources, shuffleArray.
    rewrite Hg'. done.
Qed.

(** C8: pressing "next" with cards left moves to the next card and clears
    the selection; on the last card of a study deck it builds a new deck
    from the current filter: with the filter "all" one card for each record
    of the bank, with another filter one card for each record of that
    category and no other card; it goes to the first card of the new deck
    with the selection cleared and changes nothing else; on the last card
    of a practice test it shows the summary and leaves the deck as it
    is. *)
Theorem handleNext_cases (allSources : list FlashcardSource) (s : AppState) (g : Rand) :
  (currentIndex s + 1 < length (deck s) →
   handleNext allSources s g
   = (setSelectedOption None (setCurrentIndex (currentIndex s + 1) s), g))
  ∧ (¬ currentIndex s + 1 < length (deck s) → mode s = study →
     let sources :=
       if decide (activeCategory s = CATEGORY_ALL) then allSources
       else filter (λ item, Source.category item = activeCategory s) allSources in
     let s' := (handleNext allSources s g).1 in
     handleNext allSources s g
     = (setSelectedOption None (setCurrentIndex 0
          (setDeck (buildDeck sources allSources g).1 s)),
        (buildDeck sources allSources g).2)
     ∧ currentIndex s' = 0 ∧ selectedOption s' = None
     ∧ (activeCategory s = CATEGORY_ALL →
        cardFields <$> deck s' ≡ₚ sourceFields <$> allSources)
     ∧ (activeCategory s ≠ CATEGORY_ALL →
        Forall (λ card, Question.category card = activeCategory s) (deck s')
        ∧ cardFields <$> deck s'
          ≡ₚ sourceFields
               <$> filter (λ item, Source.category item = activeCategory s)
                     allSources))
  ∧ (¬ currentIndex s + 1 < length (deck s) → mode s = practiceTest →
     handleNext allSources s g = (setShowSummary true s, g)).
Proof.
  split_and!.
  - apply handleNext_more.
  - intros Hlast Hmode. cbv zeta.
    rewrite (handleNext_last_study _ _ _ Hlast Hmode).
    cbn [fst currentIndex selectedOption deck setSelectedOption setCurrentIndex setDeck].
    destruct (buildDeck_deckOfFilter allSources s g) as [Hall Hcat].
    split_and!; done.
  - apply handleNext_last_practiceTest.
Qed.

(** ** The screens and their buttons (App.tsx, lines 246-501) *)

(** What the user can press. *)
Inductive Action : Type :=
  | PressOption (optionIndex : nat)
  | PressNext
  | PressShuffle
  | PressTheme
  | PressCategory (value : CategoryFilterValue)
  | PressStartPractice
  | PressExitPractice.

(** The category chips (lines 132-141 and 246-259) carry "all" and the
    categories of the records of the bank. *)
Definition chipShown (allSources : list FlashcardSource)
    (value : CategoryFilterValue) : bool :=
  bool_decide (value = CATEGORY_ALL ∨ value ∈ Source.category <$> allSources).

(** [progress] (lines 179-183). *)
Definition progress (s : AppState) : option Z :=
  match length (deck s) with
  | 0 => Some 0%Z
  | deckLength =>
      let answered :=
        currentIndex s + (match selectedOption s with Some _ => 1 | None => 0 end) in
      Math_round (PrimFloat.mul
                    (PrimFloat.div (toNumber answered) (toNumber deckLength))
                    (toNumber 100))
  end.

Section Buttons.
Variable allSources : list FlashcardSource.

(** Whether a button is on the screen and can be pressed: the empty-deck
    screen (lines 261-294) has the chips in study mode and the theme
    toggle; the summary (lines 296-362) the theme toggle, "Back to Study
    Deck" and "Retake Practice Test"; the card screen (lines 373-501) the
    chips, "Shuffle Deck" and "Start Practice Test" in study mode, "Back to
    Study Deck" and "Retake Practice Test" in a practice test, one button
    for each option, and "next", disabled until an option is selected. *)
Definition shown (s : AppState) (a : Action) : bool :=
  match render s with
  | EmptyDeckScreen =>
      match a with
      | PressTheme => true
      | PressCategory value => bool_decide (mode s = study) && chipShown allSources value
      | _ => false
      end
  | SummaryScreen _ =>
      match a with
      | PressTheme | PressExitPractice | PressStartPractice => true
      | _ => false
      end
  | CardScreen currentQuestion =>
      match a with
      | PressTheme => true
      | PressCategory value => bool_decide (mode s = study) && chipShown allSources value
      | PressShuffle => bool_decide (mode s = study)
      | PressStartPractice => true
      | PressExitPractice => bool_decide (mode s = practiceTest)
      | PressOption optionIndex =>
          match currentQuestion with
          | Some q => bool_decide (optionIndex < length (Question.options q))
          | None => false
          end
      | PressNext => bool_decide (selectedOption s ≠ None)
      end
  end.

(** The handler behind each button; [None] when it throws. *)
Definition handle (a : Action) (s : AppState) : Gen (option AppState) :=
  match a with
  | PressOption optionIndex => mret (handleOptionClick optionIndex s)
  | PressNext => s' ← handleNext allSources s; mret (Some s')
  | PressShuffle => s' ← handleRestart allSources s; mret (Some s')
  | PressTheme => mret (Some (toggleTheme s))
  | PressCategory value => mret (Some (handleCategoryChange value s))
  | PressStartPractice => s' ← startPracticeTest allSources s; mret (Some s')
  | PressExitPractice => mret (Some (exitPracticeTest s))
  end.

(** A press: the handler of a button that is on the screen, then the
    effect of lines 168-175 if its dependencies changed.  A button that is
    not on the screen cannot be pressed: nothing happens. *)
Definition press (a : Action) (s : AppState) : Gen (option AppState) :=
  if shown s a
  then
    r ← handle a s;
    match r with
    | Some s' => s'' ← afterRender allSources s s'; mret (Some s'')
    | None => mret None
    end
  else mret (Some s).

Fixpoint pressAll (actions : list Action) (s : AppState) : Gen (option AppState) :=
  match actions with
  | [] => mret (Some s)
  | a :: actions' =>
      r ← press a s;
      match r with
      | Some s' => pressAll actions' s'
      | None => mret None
      end
  end.

(** The component after it is mounted: the initial state, then the effect
    of lines 168-175, which runs once after the first render. *)
Definition mount (preferred : Theme) : Gen AppState :=
  s ← initialState allSources preferred;
  studyEffect allSources s.

(** A session: mounting, then a sequence of presses. *)
Definition session (preferred : Theme) (actions : list Action)
  : Gen (option AppState) :=
  s ← mount preferred;
  pressAll actions s.

(** What holds of the state after every press. *)
Definition sessionOk (s : AppState) : Prop :=
  Forall cardInvariant (deck s)
  ∧ chipShown allSources (activeCategory s) = true
  ∧ (deck s = [] → currentIndex s = 0 ∧ selectedOption s = None)
  ∧ (deck s ≠ [] → currentIndex s < length (deck s))
  ∧ (mode s = study →
     correctCount s = 0 ∧ showSummary s = false
     ∧ cardFields <$> deck s ≡ₚ sourceFields <$> filteredSources allSources s)
  ∧ (mode s = practiceTest →
     deck s ≠ []
     ∧ length (deck s) = PRACTICE_TEST_SIZE `min` length allSources
     ∧ cardFields <$> deck s ⊆+ sourceFields <$> allSources)
  ∧ correctCount s
    ≤ currentIndex s + (match selectedOption s with Some _ => 1 | None => 0 end)
  ∧ (showSummary s = true →
     selectedOption s ≠ None ∧ currentIndex s + 1 = length (deck s))
  ∧ (∀ selected, selectedOption s = Some selected →
       ∃ q, deck s !! currentIndex s = Some q
            ∧ selected < length (Question.options q)).

End Buttons.

(** ** The state after any sequence of presses *)

Section SessionInvariant.
Variable allSources : list FlashcardSource.

Lemma filteredSources_nonempty s :
  filteredSources allSources s ≠ [] → allSources ≠ [].
Proof.
  unfold filteredSources. intros Hne ->. by case_decide.
Qed.

Lemma sessionOk_bank s : sessionOk allSources s → deck s ≠ [] → allSources ≠ [].
Proof.
  intros (_ & _ & _ & _ & Hstudy & Hpractice & _) Hdeck.
  destruct (mode s) eqn:Hmode.
  - destruct (Hstudy eq_refl) as (_ & _ & Hperm).
    apply (filteredSources_nonempty s). intros Hnil. rewrite Hnil in Hperm.
    apply Permutation_length in Hperm. rewrite length_fmap in Hperm.
    by destruct (deck s).
  - destruct (Hpractice eq_refl) as (_ & Hlen & _). intros ->.
    cbn [length] in Hlen. rewrite Nat.min_0_r in Hlen. by destruct (deck s).
Qed.

(** A deck just built for the active filter, in study mode. *)
Lemma sessionOk_fresh_study s g :
  mode s = study → chipShown allSources (activeCategory s) = true →
  deck s = (buildDeck (filteredSources allSources s) allSources g).1 →
  currentIndex s = 0 → selectedOption s = None →
  correctCount s = 0 → showSummary s = false →
  sessionOk allSources s.
Proof.
  intros Hmode Hchip Hdeck Hidx Hsel Hcount Hsum. unfold sessionOk.
  rewrite Hmode, Hidx, Hsel, Hcount, Hsum. split_and!; try done.
  - rewrite Hdeck. apply buildDeck_invariant.
  - intros Hne. destruct (deck s); [done|simpl; lia].
  - intros _. split_and!; [done..|]. rewrite Hdeck. apply buildDeck_fields.
Qed.

(** A deck just built for a practice test. *)
Lemma sessionOk_fresh_practiceTest s g :
  allSources ≠ [] →
  mode s = practiceTest → chipShown allSources (activeCategory s) = true →
  deck s = (buildDeck (sampleSources allSources g) allSources
              (shuffleArray allSources g).2).1 →
  currentIndex s = 0 → selectedOption s = None →
  correctCount s = 0 → showSummary s = false →
  sessionOk allSources s.
Proof.
  intros Hbank Hmode Hchip Hdeck Hidx Hsel Hcount Hsum. unfold sessionOk.
  rewrite Hmode, Hidx, Hsel, Hcount, Hsum.
  assert (length (deck s) = PRACTICE_TEST_SIZE `min` length allSources) as Hlen.
  { rewrite Hdeck, buildDeck_length. apply sampleSources_length. }
  assert (deck s ≠ []) as Hne.
  { intros Hnil. rewrite Hnil in Hlen. cbn [length] in Hlen.
    destruct allSources; [done|]. unfold PRACTICE_TEST_SIZE in Hlen.
    cbn [length] in Hlen. lia. }
  split_and!; try done.
  - rewrite Hdeck. apply buildDeck_invariant.
  - intros _. destruct (deck s); [done|simpl; lia].
  - intros _. split_and!; [done..|].
    rewrite Hdeck, buildDeck_fields. apply fmap_submseteq, sampleSources_submseteq.
Qed.

(** The effect of lines 168-175 in study mode. *)
Lemma sessionOk_studyEffect s g :
  mode s = study → chipShown allSources (activeCategory s) = true →
  sessionOk allSources (studyEffect allSources s g).1.
Proof.
  intros Hmode Hchip. unfold studyEffect. rewrite Hmode, Gen_bind_fst.
  by apply (sessionOk_fresh_study _ g).
Qed.

Lemma render_card s :
  sessionOk allSources s → deck s ≠ [] →
  ∃ q, deck s !! currentIndex s = Some q.
Proof.
  intros (_ & _ & _ & Hidx & _) Hne. by apply lookup_lt_is_Some_2, Hidx.
Qed.

Lemma sessionOk_toggleTheme s :
  sessionOk allSources s → sessionOk allSources (toggleTheme s).
Proof. done. Qed.

Lemma sessionOk_option s optionIndex q :
  sessionOk allSources s → showSummary s = false →
  deck s !! currentIndex s = Some q →
  optionIndex < length (Question.options q) →
  ∃ s', handleOptionClick optionIndex s = Some s' ∧ sessionOk allSources s'
        ∧ mode s' = mode s ∧ activeCategory s' = activeCategory s.
Proof.
  intros Hok Hsum Hq Hopt.
  destruct (selectedOption s) as [selected|] eqn:Hsel.
  { exists s. split; [|done]. apply handleOptionClick_answered. by rewrite Hsel. }
  destruct Hok as (Hcards & Hchip & Hempty & Hidx & Hstudy & Hpractice & Hcount & _ & _).
  rewrite Hsel in Hcount.
  assert (∀ count,
            (mode s = study → count = 0) → count ≤ currentIndex s + 1 →
            sessionOk allSources
              (setCorrectCount count (setSelectedOption (Some optionIndex) s)))
    as Hnext.
  { intros count Hzero Hle. unfold sessionOk. cbn. rewrite Hsum.
    split_and!; try done.
    - intros Hnil. by rewrite Hnil in Hq.
    - intros Hmode. destruct (Hstudy Hmode) as (_ & _ & Hperm). auto.
    - intros selected [= <-]. by exists q. }
  destruct (mode s) eqn:Hmode.
  - exists (setSelectedOption (Some optionIndex) s).
    split; [by apply handleOptionClick_study|]. split; [|done].
    destruct (Hstudy eq_refl) as (Hzero & _).
    replace (setSelectedOption (Some optionIndex) s)
      with (setCorrectCount 0 (setSelectedOption (Some optionIndex) s))
      by (unfold setCorrectCount; simpl; rewrite <- Hzero; by destruct s).
    apply Hnext; [done|lia].
  - eexists. split; [by eapply handleOptionClick_practiceTest|]. split; [|done].
    apply Hnext; [done|]. case_decide; lia.
Qed.

Lemma sessionOk_next s g :
  sessionOk allSources s → showSummary s = false → deck s ≠ [] →
  selectedOption s ≠ None →
  sessionOk allSources (handleNext allSources s g).1
  ∧ mode (handleNext allSources s g).1 = mode s
  ∧ activeCategory (handleNext allSources s g).1 = activeCategory s.
Proof.
  intros Hok Hsum Hne Hsel.
  pose proof Hok as (Hcards & Hchip & Hempty & Hidx & Hstudy & Hpractice & Hcount & _ & Hpick).
  specialize (Hidx Hne).
  destruct (decide (currentIndex s + 1 < length (deck s))) as [Hmore|Hlast].
  - rewrite handleNext_more by done. split; [|done].
    unfold sessionOk. cbn. rewrite Hsum. split_and!; try done.
    + intros Hmode. destruct (Hstudy Hmode) as (? & _ & ?). auto.
    + destruct (selectedOption s); [lia|done].
  - destruct (mode s) eqn:Hmode.
    + rewrite handleNext_last_study by done. split; [|done].
      destruct (Hstudy eq_refl) as (Hzero & _ & _).
      by apply (sessionOk_fresh_study _ g).
    + rewrite handleNext_last_practiceTest by done. split; [|done].
      unfold sessionOk. cbn. rewrite Hmode. split_and!; try done.
      intros _. split; [done|lia].
Qed.

End SessionInvariant.

Section PressFacts.
Variable allSources : list FlashcardSource.

Lemma render_cases s :
  (deck s = [] ∧ render s = EmptyDeckScreen)
  ∨ (deck s ≠ [] ∧ mode s = practiceTest ∧ showSummary s = true
     ∧ render s = SummaryScreen (summaryOf s))
  ∨ (deck s ≠ [] ∧ (mode s = study ∨ showSummary s = false)
     ∧ render s = CardScreen (deck s !! currentIndex s)).
Proof.
  unfold render. destruct (deck s) as [|card cards]; [by left|]. right.
  destruct (mode s), (showSummary s); auto.
Qed.

Lemma shown_option s optionIndex :
  shown allSources s (PressOption optionIndex) = true →
  deck s ≠ [] ∧ (mode s = study ∨ showSummary s = false)
  ∧ ∃ q, deck s !! currentIndex s = Some q
         ∧ optionIndex < length (Question.options q).
Proof.
  unfold shown.
  destruct (render_cases s) as [(_ & ->)|[(_ & _ & _ & ->)|(Hne & Hcard & ->)]];
    [done..|].
  destruct (deck s !! currentIndex s) as [q|]; [|done].
  intros Hlt%bool_decide_eq_true. split_and!; [done..|]. by exists q.
Qed.

Lemma shown_next s :
  shown allSources s PressNext = true →
  deck s ≠ [] ∧ (mode s = study ∨ showSummary s = false) ∧ selectedOption s ≠ None.
Proof.
  unfold shown.
  destruct (render_cases s) as [(_ & ->)|[(_ & _ & _ & ->)|(Hne & Hcard & ->)]];
    [done..|].
  by intros Hsel%bool_decide_eq_true.
Qed.

Lemma shown_shuffle s :
  shown allSources s PressShuffle = true → deck s ≠ [] ∧ mode s = study.
Proof.
  unfold shown.
  destruct (render_cases s) as [(_ & ->)|[(_ & _ & _ & ->)|(Hne & Hcard & ->)]];
    [done..|].
  by intros Hmode%bool_decide_eq_true.
Qed.

Lemma shown_category s value :
  shown allSources s (PressCategory value) = true →
  mode s = study ∧ chipShown allSources value = true.
Proof.
  unfold shown.
  destruct (render_cases s) as [(_ & ->)|[(_ & _ & _ & ->)|(Hne & Hcard & ->)]];
    [|done|]; by intros [Hmode%bool_decide_eq_true Hchip]%andb_true_iff.
Qed.

Lemma shown_start s :
  shown allSources s PressStartPractice = true → deck s ≠ [].
Proof.
  unfold shown.
  by destruct (render_cases s) as [(_ & ->)|[(? & _ & _ & ->)|(? & _ & ->)]].
Qed.

Lemma shown_exit s :
  shown allSources s PressExitPractice = true → mode s = practiceTest.
Proof.
  unfold shown.
  destruct (render_cases s) as [(_ & ->)|[(? & ? & _ & ->)|(? & _ & ->)]];
    [done..|].
  by intros Hmode%bool_decide_eq_true.
Qed.

Lemma afterRender_same before after g :
  mode before = mode after → activeCategory before = activeCategory after →
  afterRender allSources before after g = (after, g).
Proof.
  intros Hmode Hcat. unfold afterRender. by rewrite decide_True.
Qed.

Lemma sessionOk_summary_off s :
  sessionOk allSources s → mode s = study ∨ showSummary s = false →
  showSummary s = false.
Proof.
  intros (_ & _ & _ & _ & Hstudy & _) [Hmode|?]; [|done].
  by destruct (Hstudy Hmode) as (_ & ? & _).
Qed.

(** A press on a state that is in order does not throw and leaves a state
    that is in order. *)
Lemma press_sessionOk a s g :
  sessionOk allSources s →
  ∃ s', (press allSources a s g).1 = Some s' ∧ sessionOk allSources s'.
Proof.
  intros Hok. unfold press.
  destruct (shown allSources s a) eqn:Hshown; [|by exists s].
  rewrite Gen_bind_fst.
  pose proof Hok as (_ & Hchip & _ & _ & Hstudy & _).
  destruct a as [optionIndex| | | |value| |]; cbn [handle].
  - apply shown_option in Hshown as (Hne & Hcard & q & Hq & Hlt).
    pose proof (sessionOk_summary_off s Hok Hcard) as Hsum.
    destruct (sessionOk_option allSources s optionIndex q Hok Hsum Hq Hlt)
      as (s' & Hs' & Hok' & Hmode' & Hcat').
    cbn [mret Gen_ret fst snd]. rewrite Hs', Gen_bind_fst.
    rewrite afterRender_same by done. by exists s'.
  - apply shown_next in Hshown as (Hne & Hcard & Hsel).
    pose proof (sessionOk_summary_off s Hok Hcard) as Hsum.
    destruct (sessionOk_next allSources s g Hok Hsum Hne Hsel) as (Hok' & Hmode' & Hcat').
    rewrite Gen_bind_fst. cbn [mret Gen_ret fst snd]. rewrite Gen_bind_fst.
    rewrite afterRender_same by done. by eexists.
  - apply shown_shuffle in Hshown as (Hne & Hmode).
    unfold handleRestart. rewrite Hmode, !Gen_bind_fst.
    cbn [mret Gen_ret fst snd]. rewrite Gen_bind_fst.
    rewrite afterRender_same by done. eexists. split; [done|].
    destruct (Hstudy Hmode) as (Hzero & Hsum & _).
    by apply (sessionOk_fresh_study _ _ g).
  - cbn [mret Gen_ret fst snd]. rewrite Gen_bind_fst.
    rewrite afterRender_same by done. eexists. split; [done|].
    by apply sessionOk_toggleTheme.
  - apply shown_category in Hshown as (Hmode & Hchip').
    cbn [mret Gen_ret fst snd]. rewrite Gen_bind_fst.
    unfold afterRender, handleCategoryChange.
    destruct (decide _) as [[_ Hsame]|Hchanged].
    + eexists. split; [done|]. cbn in Hsame. subst value. by destruct s.
    + eexists. split; [done|]. by apply sessionOk_studyEffect.
  - apply shown_start in Hshown.
    pose proof (sessionOk_bank allSources s Hok Hshown) as Hbank.
    pose proof (pressStartPracticeTest_eq allSources s g) as Heq.
    unfold pressStartPracticeTest in Heq. cbv zeta in Heq.
    rewrite Gen_bind_fst in Heq.
    rewrite Gen_bind_fst. cbn [mret Gen_ret fst snd]. rewrite Gen_bind_fst.
    rewrite Heq. eexists. split; [done|].
    by apply (sessionOk_fresh_practiceTest _ _ g).
  - apply shown_exit in Hshown.
    cbn [mret Gen_ret fst snd]. rewrite Gen_bind_fst.
    unfold afterRender. rewrite decide_False
      by (intros [Hmode _]; cbn in Hmode; congruence).
    eexists. split; [done|]. by apply sessionOk_studyEffect.
Qed.

Lemma pressAll_sessionOk actions s g :
  sessionOk allSources s →
  ∃ s', (pressAll allSources actions s g).1 = Some s' ∧ sessionOk allSources s'.
Proof.
  revert s g. induction actions as [|a actions IH]; intros s g Hok; [by exists s|].
  cbn [pressAll]. rewrite Gen_bind_fst.
  destruct (press_sessionOk a s g Hok) as (s1 & -> & Hok1). by apply IH.
Qed.

Lemma mount_sessionOk preferred g :
  sessionOk allSources (mount allSources preferred g).1.
Proof.
  unfold mount. rewrite Gen_bind_fst. by apply sessionOk_studyEffect.
Qed.

Lemma session_sessionOk preferred actions g :
  ∃ s, (session allSources preferred actions g).1 = Some s ∧ sessionOk allSources s.
Proof.
  unfold session. rewrite Gen_bind_fst.
  apply pressAll_sessionOk, mount_sessionOk.
Qed.

End PressFacts.

Lemma chipShown_filtered allSources s :
  chipShown allSources (activeCategory s) = true → allSources ≠ [] →
  filteredSources allSources s ≠ [].
Proof.
  unfold chipShown, filteredSources. intros Hchip%bool_decide_eq_true Hbank.
  case_decide as Hall; [done|]. destruct Hchip as [?|Hin]; [done|].
  apply list_elem_of_fmap_1 in Hin as (source & Hc & Hin). intros Hnil.
  assert (source ∈ filter (λ item, Source.category item = activeCategory s)
                     allSources) as Hf by (by apply list_elem_of_filter).
  rewrite Hnil in Hf. by apply elem_of_nil in Hf.
Qed.

(** X9: whatever is pressed after mounting, in whatever order, no handler
    throws, and the screen always has its card: the deck is empty, in which
    case the position is 0 and nothing is selected, or the current position
    is a card of the deck; a selected option is one of the options of that
    card. *)
Theorem session_never_throws
    (allSources : list FlashcardSource) (preferred : Theme)
    (actions : list Action) (g : Rand) :
  ∃ s,
    (session allSources preferred actions g).1 = Some s
    ∧ render s ≠ CardScreen None
    ∧ (deck s = [] → currentIndex s = 0 ∧ selectedOption s = None)
    ∧ (deck s ≠ [] → currentIndex s < length (deck s))
    ∧ (∀ selected, selectedOption s = Some selected →
         ∃ q, deck s !! currentIndex s = Some q
              ∧ selected < length (Question.options q)).
Proof.
  destruct (session_sessionOk allSources preferred actions g) as (s & Hs & Hok).
  exists s. split; [done|].
  pose proof Hok as (_ & _ & Hempty & Hidx & _ & _ & _ & _ & Hpick).
  split_and!; try done.
  destruct (render_cases s) as [(_ & ->)|[(_ & _ & _ & ->)|(Hne & _ & ->)]]; [done..|].
  destruct (render_card allSources s Hok Hne) as [q ->]. done.
Qed.

(** X10: whatever is pressed after mounting, the score never exceeds the
    number of cards answered so far, hence the size of the deck; in study
    mode the score stays 0 and the summary is never shown; and when the
    summary is shown an option is selected on the last card. *)
Theorem session_score_bounds
    (allSources : list FlashcardSource) (preferred : Theme)
    (actions : list Action) (g : Rand) :
  ∃ s,
    (session allSources preferred actions g).1 = Some s
    ∧ correctCount s
      ≤ currentIndex s + (match selectedOption s with Some _ => 1 | None => 0 end)
    ∧ correctCount s ≤ length (deck s)
    ∧ (mode s = study → correctCount s = 0 ∧ showSummary s = false)
    ∧ (showSummary s = true →
       selectedOption s ≠ None ∧ currentIndex s + 1 = length (deck s)).
Proof.
  destruct (session_sessionOk allSources preferred actions g) as (s & Hs & Hok).
  exists s. split; [done|].
  destruct Hok as (_ & _ & Hempty & Hidx & Hstudy & _ & Hcount & Hsum & _).
  split_and!; try done.
  - destruct (deck s) as [|card cards] eqn:Hdeck.
    + destruct (Hempty eq_refl) as [Hzero Hnone].
      rewrite Hzero, Hnone in Hcount. simpl. lia.
    + specialize (Hidx ltac:(done)). destruct (selectedOption s); lia.
  - intros Hmode. by destruct (Hstudy Hmode) as (? & ? & _).
Qed.

(** X11: whatever is pressed after mounting, every card of the deck
    satisfies the card invariant; in study mode the deck holds exactly one
    card for each record of the active filter (with that record's
    identifier, prompt, answer, reference, category and image): with the
    filter "all" one for each record of the bank, with another filter one
    for each record of that category and no card of another category; in a
    practice test it holds min(50, bank size) cards, each of a different
    record of the bank. *)
Theorem session_deck_contents
    (allSources : list FlashcardSource) (preferred : Theme)
    (actions : list Action) (g : Rand) :
  ∃ s,
    (session allSources preferred actions g).1 = Some s
    ∧ Forall cardInvariant (deck s)
    ∧ (mode s = study →
       (activeCategory s = CATEGORY_ALL →
        cardFields <$> deck s ≡ₚ sourceFields <$> allSources)
       ∧ (activeCategory s ≠ CATEGORY_ALL →
          Forall (λ card, Question.category card = activeCategory s) (deck s)
          ∧ cardFields <$> deck s
            ≡ₚ sourceFields
                 <$> filter (λ item, Source.category item = activeCategory s)
                       allSources))
    ∧ (mode s = practiceTest →
       length (deck s) = 50 `min` length allSources
       ∧ cardFields <$> deck s ⊆+ sourceFields <$> allSources).
Proof.
  destruct (session_sessionOk allSources preferred actions g) as (s & Hs & Hok).
  exists s. split; [done|].
  destruct Hok as (Hcards & _ & _ & _ & Hstudy & Hpractice & _).
  split_and!; [done| |].
  - intros Hmode. destruct (Hstudy Hmode) as (_ & _ & Hperm).
    by apply fields_deckOfFilter.
  - intros Hmode. by destruct (Hpractice Hmode) as (_ & ? & ?).
Qed.

(** X12: whatever is pressed after mounting, the "no cards" screen is shown
    exactly when the bank is empty: the chips offer only categories that
    have records. *)
Theorem session_empty_screen
    (allSources : list FlashcardSource) (preferred : Theme)
    (actions : list Action) (g : Rand) :
  ∃ s,
    (session allSources preferred actions g).1 = Some s
    ∧ (render s = EmptyDeckScreen ↔ allSources = []).
Proof.
  destruct (session_sessionOk allSources preferred actions g) as (s & Hs & Hok).
  exists s. split; [done|].
  assert (deck s = [] ↔ allSources = []) as Hiff.
  { split.
    - intros Hnil. destruct (decide (allSources = [])) as [|Hbank]; [done|].
      exfalso.
      destruct Hok as (_ & Hchip & _ & _ & Hstudy & Hpractice & _).
      destruct (mode s) eqn:Hmode.
      + destruct (Hstudy eq_refl) as (_ & _ & Hperm).
        apply (chipShown_filtered allSources s Hchip Hbank).
        rewrite Hnil in Hperm. apply Permutation_length in Hperm.
        rewrite length_fmap in Hperm.
        by destruct (filteredSources allSources s).
      + by destruct (Hpractice eq_refl) as (? & _).
    - intros Hbank. destruct (deck s) as [|card cards] eqn:Hdeck; [done|].
      exfalso. apply (sessionOk_bank allSources s Hok); [|done]. by rewrite Hdeck. }
  rewrite <- Hiff.
  destruct (render_cases s) as [(Hnil & ->)|[(Hne & _ & _ & ->)|(Hne & _ & ->)]];
    split; done.
Qed.

Section Transitions.
Variable allSources : list FlashcardSource.

Lemma studyEffect_study s g :
  mode s = study →
  studyEffect allSources s g
  = (mkApp (theme s) (activeCategory s) study
       (buildDeck (filteredSources allSources s) allSources g).1 0 None 0 false,
     (buildDeck (filteredSources allSources s) allSources g).2).
Proof.
  intros Hmode. destruct s as [th cat md dk idx sel cnt sm].
  cbn in Hmode. subst md. done.
Qed.

End Transitions.

(** X13: pressing a category chip other than the one of the active filter
    (study mode) shows a new deck on its first card, with nothing selected
    and the score at 0: for the chip "all" one card for each record of the
    bank, for another chip one card for each record of that category and
    only cards of that category; pressing the chip of the active filter
    changes nothing and draws nothing. *)
Theorem press_category
    (allSources : list FlashcardSource) (s : AppState)
    (value : CategoryFilterValue) (g : Rand) :
  shown allSources s (PressCategory value) = true →
  (activeCategory s = value →
   press allSources (PressCategory value) s g = (Some s, g))
  ∧ (activeCategory s ≠ value →
     ∃ s',
       (press allSources (PressCategory value) s g).1 = Some s'
       ∧ activeCategory s' = value ∧ mode s' = study
       ∧ currentIndex s' = 0 ∧ selectedOption s' = None
       ∧ correctCount s' = 0 ∧ showSummary s' = false
       ∧ (value = CATEGORY_ALL →
          cardFields <$> deck s' ≡ₚ sourceFields <$> allSources)
       ∧ (value ≠ CATEGORY_ALL →
          Forall (λ card, Question.category card = value) (deck s')
          ∧ cardFields <$> deck s'
            ≡ₚ sourceFields
                 <$> filter (λ item, Source.category item = value) allSources
          ∧ deck s' ≠ [])).
Proof.
  intros Hshown. unfold press. rewrite Hshown.
  apply shown_category in Hshown as (Hmode & Hchip).
  cbn [handle]. split.
  - intros Hsame. rewrite Gen_bind_fst. cbn [mret Gen_ret fst snd].
    rewrite Gen_bind_fst. unfold handleCategoryChange.
    rewrite afterRender_same by (done || by rewrite Hsame).
    rewrite <- Hsame. by destruct s.
  - intros Hchanged. rewrite Gen_bind_fst. cbn [mret Gen_ret fst snd].
    rewrite Gen_bind_fst. unfold handleCategoryChange, afterRender.
    rewrite decide_False by (intros [_ Heq]; by cbn in Heq).
    rewrite studyEffect_study by done.
    cbn [fst theme activeCategory setActiveCategory].
    eexists. split; [done|].
    cbn [activeCategory mode currentIndex selectedOption correctCount showSummary deck].
    destruct (buildDeck_deckOfFilter allSources (setActiveCategory value s) g)
      as [Hall Hcat].
    cbn [activeCategory setActiveCategory] in Hall, Hcat.
    split_and!; try done.
    intros Hne. destruct (Hcat Hne) as [Hcats Hperm]. split_and!; [done..|].
    intros Hnil. rewrite Hnil in Hperm.
    apply Permutation_length in Hperm. rewrite length_fmap in Hperm.
    apply bool_decide_eq_true in Hchip as [?|Hin]; [done|].
    apply list_elem_of_fmap_1 in Hin as (source & Hc & Hin).
    assert (source ∈ filter (λ item, Source.category item = value) allSources)
      as Hs by (by apply list_elem_of_filter).
    destruct (filter _ allSources); [by apply elem_of_nil in Hs|done].
Qed.

(** A study session on the first card of a deck of all signs. *)
Definition studySigns : AppState :=
  mkApp light CATEGORY_ALL study [stopCard; yieldCard] 0 None 0 false.

(** X14: "Back to Study Deck" leaves the practice test for study mode with
    a new deck of the records of the filter that was active before the
    test (with the filter "all" one card for each record of the bank, with
    another filter one card for each record of that category and no card
    of another category), on its first card, with nothing selected, the
    score at 0 and the summary off. *)
Theorem press_exit_practice
    (allSources : list FlashcardSource) (s : AppState) (g : Rand) :
  shown allSources s PressExitPractice = true →
  ∃ s',
    (press allSources PressExitPractice s g).1 = Some s'
    ∧ mode s' = study ∧ activeCategory s' = activeCategory s
    ∧ theme s' = theme s
    ∧ currentIndex s' = 0 ∧ selectedOption s' = None
    ∧ correctCount s' = 0 ∧ showSummary s' = false
    ∧ (activeCategory s = CATEGORY_ALL →
       cardFields <$> deck s' ≡ₚ sourceFields <$> allSources)
    ∧ (activeCategory s ≠ CATEGORY_ALL →
       Forall (λ card, Question.category card = activeCategory s) (deck s')
       ∧ cardFields <$> deck s'
         ≡ₚ sourceFields
              <$> filter (λ item, Source.category item = activeCategory s)
                    allSources).
Proof.
  intros Hshown. unfold press. rewrite Hshown.
  apply shown_exit in Hshown.
  cbn [handle]. rewrite Gen_bind_fst. cbn [mret Gen_ret fst snd].
  rewrite Gen_bind_fst. unfold afterRender.
  rewrite decide_False by (intros [Hmode _]; cbn in Hmode; congruence).
  rewrite studyEffect_study by done.
  cbn [fst activeCategory exitPracticeTest setMode setShowSummary].
  eexists. split; [done|].
  cbn [mode activeCategory theme currentIndex selectedOption correctCount
       showSummary deck].
  destruct (buildDeck_deckOfFilter allSources (exitPracticeTest s) g)
    as [Hall Hcat].
  split_and!; done.
Qed.

(** ** The progress bar *)

(** The state of a deck of [deckLength] cards with [answered] cards
    answered: on card [answered] with nothing selected, or on the last card
    with an option selected. *)
Definition progressAt (answered deckLength : nat) : option Z :=
  progress (mkApp light CATEGORY_ALL study (replicate deckLength stopCard)
              answered None 0 false).

Lemma progress_at s :
  progress s
  = progressAt
      (currentIndex s + (match selectedOption s with Some _ => 1 | None => 0 end))
      (length (deck s)).
Proof.
  unfold progressAt, progress. cbn [deck currentIndex selectedOption].
  rewrite length_replicate, Nat.add_0_r. done.
Qed.

(** The percentage is a number from 0 to 100, 0 only before the first
    answer and 100 only after the last. *)
Definition progressInRange (answered deckLength : nat) : Prop :=
  ∃ p, progressAt answered deckLength = Some p
       ∧ (0 ≤ p ≤ 100)%Z
       ∧ (p = 0%Z ↔ answered = 0)
       ∧ (p = 100%Z ↔ answered = deckLength).

Definition progressChecked (answered deckLength : nat) : bool :=
  match progressAt answered deckLength with
  | Some p =>
      (0 <=? p)%Z && (p <=? 100)%Z
      && bool_decide ((p = 0%Z) ↔ answered = 0)
      && bool_decide ((p = 100%Z) ↔ answered = deckLength)
  | None => false
  end.

Definition progressCheckedBelow (bound : nat) : bool :=
  forallb
    (λ deckLength,
       forallb (λ answered, progressChecked answered deckLength)
         (seq 0 (S deckLength)))
    (seq 1 bound).

Lemma progressCheckedBelow_200 : progressCheckedBelow 199 = true.
Proof. vm_compute. reflexivity. Qed.

Lemma progressChecked_spec answered deckLength :
  progressChecked answered deckLength = true → progressInRange answered deckLength.
Proof.
  unfold progressChecked, progressInRange.
  destruct (progressAt answered deckLength) as [p|]; [|done].
  rewrite !andb_true_iff, !bool_decide_eq_true, Z.leb_le, Z.leb_le.
  intros [[[? ?] ?] ?]. by exists p.
Qed.

Lemma progressCheckedBelow_spec bound answered deckLength :
  progressCheckedBelow bound = true →
  1 ≤ deckLength ≤ bound → answered ≤ deckLength →
  progressChecked answered deckLength = true.
Proof.
  unfold progressCheckedBelow. intros H Hlen Hans.
  rewrite forallb_forall in H.
  specialize (H deckLength). rewrite in_seq in H. specialize (H ltac:(lia)).
  rewrite forallb_forall in H. apply H. rewrite in_seq. lia.
Qed.

Lemma progressInRange_below answered deckLength :
  1 ≤ deckLength ≤ 199 → answered ≤ deckLength →
  progressInRange answered deckLength.
Proof.
  intros Hlen Hans. apply progressChecked_spec.
  by apply (progressCheckedBelow_spec 199 _ _ progressCheckedBelow_200).
Qed.

(** With 200 cards the bar is full one answer early. *)
Example progress_199_of_200 : progressAt 199 200 = Some 100%Z.
Proof. vm_compute. reflexivity. Qed.

(** X15: on a deck of fewer than 200 cards the percentage of the progress
    bar is a whole number from 0 to 100; it is 0 exactly before the first
    answer and 100 exactly when an option is selected on the last card. *)
Theorem progress_bounds (s : AppState) :
  length (deck s) < 200 → currentIndex s < length (deck s) →
  ∃ p,
    progress s = Some p
    ∧ (0 ≤ p ≤ 100)%Z
    ∧ (p = 0%Z ↔ currentIndex s = 0 ∧ selectedOption s = None)
    ∧ (p = 100%Z
       ↔ currentIndex s + 1 = length (deck s) ∧ selectedOption s ≠ None).
Proof.
  intros Hlen Hidx. rewrite progress_at.
  set (answered := currentIndex s + _).
  assert (answered ≤ length (deck s)) as Hans
    by (unfold answered; destruct (selectedOption s); lia).
  destruct (progressInRange_below answered (length (deck s)) ltac:(lia) Hans)
    as (p & Hp & Hrange & Hzero & Hfull).
  exists p. split; [done|]. split; [done|].
  rewrite Hzero, Hfull. unfold answered.
  destruct (selectedOption s) as [selected|].
  - split; [split; [lia|by intros [_ ?]]|].
    split; [intros; split; [lia|done]|intros [? _]; lia].
  - split; [split; [intros; split; [lia|done]|intros [? _]; lia]|].
    split; [lia|by intros [_ ?]].
Qed.

Lemma progress_bounds_witness :
  ∃ p, progress practiceStart = Some p ∧ p = 0%Z.
Proof.
  destruct (progress_bounds practiceStart) as (p & Hp & _ & Hzero & _).
  - simpl. lia.
  - simpl. lia.
  - exists p. split; [exact Hp|]. apply Hzero. split; reflexivity.
Defined.

(** ** The theme preference across a reload *)

Lemma getPreferredTheme_stored w t :
  readable (localStorage w) = true →
  items (localStorage w) !! "pt-theme" = Some (themeName t) →
  getPreferredTheme (Some w) = Returned t.
Proof.
  intros Hr Hitem. rewrite getPreferredTheme_window.
  unfold readablePreference, specifiedTheme. rewrite Hr, Hitem.
  by destruct t.
Qed.

(** X16: a theme the effect has stored is the theme of the next startup:
    when the page has a root element and the storage can be written and
    read, [getPreferredTheme] in the window the effect leaves returns the
    theme the effect ran with, whatever was stored before and whatever the
    system signal is. *)
Theorem theme_survives_reload (t : Theme) (w : Window) :
  documentElement w ≠ None →
  writable (localStorage w) = true →
  readable (localStorage w) = true →
  ∃ w', themeEffect t w = Returned w' ∧ getPreferredTheme (Some w') = Returned t.
Proof.
  intros Hroot Hw Hr. unfold themeEffect, setItem.
  destruct (documentElement w) as [classList|]; [|done].
  cbn. rewrite Hw. cbn. eexists. split; [done|].
  apply getPreferredTheme_stored; cbn; [done|]. apply lookup_insert_eq.
Qed.

(** A browser with a light preference stored and a light system scheme. *)
Definition openWindow : Window :=
  mkWindow (mkStorage {[ "pt-theme" := "light" ]} true true)
           (Some (λ query, false))
           (Some ["app"; "theme-light"]).

Lemma theme_survives_reload_witness :
  ∃ w', themeEffect dark openWindow = Returned w'
        ∧ getPreferredTheme (Some w') = Returned dark.
Proof.
  apply (theme_survives_reload dark openWindow); [discriminate|reflexivity..].
Defined.

(** The two classes the effect toggles. *)
Definition themeClass (c : string) : Prop := c = "theme-light" ∨ c = "theme-dark".

#[global] Instance themeClass_dec c : Decision (themeClass c).
Proof. unfold themeClass. apply _. Defined.

Definition classOf (t : Theme) : string :=
  match t with dark => "theme-dark" | light => "theme-light" end.

Lemma filter_not_theme (classList : list string) :
  filter (λ c, c ≠ "theme-light" ∧ c ≠ "theme-dark") classList
  = filter (λ c, ¬ themeClass c) classList.
Proof.
  apply list_filter_iff. intros c. unfold themeClass. tauto.
Qed.

Lemma filter_theme_none (classList : list string) :
  filter themeClass (filter (λ c, ¬ themeClass c) classList) = [].
Proof.
  induction classList as [|c classList IH]; [done|].
  rewrite (filter_cons (λ c, ¬ themeClass c)).
  destruct (decide (¬ themeClass c)); [|done].
  rewrite filter_cons. by destruct (decide (themeClass c)).
Qed.

(** X17: after the theme effect the root element carries exactly one of
    the classes "theme-light" and "theme-dark", the one of the theme, and
    every other class it had, in the same order; running the effect again
    with the same theme changes nothing. *)
Theorem themeEffect_root_classes (t : Theme) (w : Window) (classList : list string) :
  documentElement w = Some classList →
  ∃ w' classList',
    themeEffect t w = Returned w'
    ∧ documentElement w' = Some classList'
    ∧ filter themeClass classList' = [classOf t]
    ∧ filter (λ c, ¬ themeClass c) classList'
      = filter (λ c, ¬ themeClass c) classList
    ∧ themeEffect t w' = Returned w'.
Proof.
  intros Hroot. unfold themeEffect at 1. rewrite Hroot. cbn [mbind Exc_bind].
  set (classList' := filter _ classList ++ [_]).
  assert (classList' = filter (λ c, ¬ themeClass c) classList ++ [classOf t])
    as Hcl by (unfold classList'; by rewrite filter_not_theme).
  assert (filter themeClass classList' = [classOf t]) as Hone.
  { rewrite Hcl, filter_app, filter_theme_none. by destruct t. }
  assert (filter (λ c, ¬ themeClass c) classList'
          = filter (λ c, ¬ themeClass c) classList) as Hrest.
  { rewrite Hcl, filter_app, list_filter_filter.
    rewrite (list_filter_iff _ (λ c, ¬ themeClass c)) by tauto.
    destruct t; by rewrite app_nil_r. }
  assert (filter (λ c, c ≠ "theme-light" ∧ c ≠ "theme-dark") classList'
          ++ [match t with dark => "theme-dark" | light => "theme-light" end]
          = classList') as Hagain.
  { rewrite filter_not_theme, Hrest, Hcl. reflexivity. }
  unfold setItem. cbn. destruct (writable (localStorage w)) eqn:Hw; cbn.
  - eexists _, classList'. split; [done|]. cbn. split_and!; [done..|].
    unfold themeEffect, setItem. cbn. rewrite Hagain. cbn.
    by rewrite insert_insert_eq.
  - eexists _, classList'. split; [done|]. cbn. split_and!; [done..|].
    unfold themeEffect, setItem. cbn. rewrite ?Hw, Hagain. cbn. by rewrite ?Hw.
Qed.

Lemma themeEffect_root_classes_witness :
  ∃ w', themeEffect dark openWindow = Returned w'
        ∧ documentElement w' = Some ["app"; "theme-dark"]
        ∧ themeEffect dark w' = Returned w'.
Proof.
  destruct (themeEffect_root_classes dark openWindow ["app"; "theme-light"] eq_refl)
    as (w' & classList' & Hw' & Hroot & _ & _ & Hagain).
  exists w'. split; [exact Hw'|]. split; [|exact Hagain].
  rewrite Hroot. vm_compute in Hw'. injection Hw' as <-. vm_compute in Hroot.
  injection Hroot as <-. reflexivity.
Defined.

(** ** The category chips (App.tsx, lines 132-141) *)

(** [Array.from(new Set(values))]: the values in the order of their first
    occurrence. *)
Definition uniqueValues (values : list string) : list string :=
  foldl (λ set value, Set_add value set) [] values.

Section CategoryOptions.
(** [.sort((a, b) => a.localeCompare(b))]: the order depends on the locale
    of the browser; what is used of it is that it rearranges the list. *)
Variable localeSort : list string → list string.

Definition categoryOptions (allSources : list FlashcardSource)
  : list (CategoryFilterValue * string) :=
  let uniqueCategories :=
    localeSort (uniqueValues (Source.category <$> allSources)) in
  (CATEGORY_ALL, "All Topics")
  :: ((λ category, (category, category)) <$> uniqueCategories).

End CategoryOptions.

Lemma foldl_Set_add_elem values set x :
  x ∈ foldl (λ set value, Set_add value set) set values ↔ x ∈ set ∨ x ∈ values.
Proof.
  revert set. induction values as [|v values IH]; intros set; simpl.
  { rewrite elem_of_nil. tauto. }
  rewrite IH, Set_add_elem, elem_of_cons. tauto.
Qed.

Lemma foldl_Set_add_NoDup values set :
  NoDup set → NoDup (foldl (λ set value, Set_add value set) set values).
Proof.
  revert set. induction values as [|v values IH]; intros set Hnd; [done|].
  simpl. by apply IH, Set_add_NoDup.
Qed.

(** X18: whatever order the locale gives, the chips are "All Topics",
    with the value "all", and then one chip for each category that occurs
    in the bank, each category once; a value has a chip exactly when it is
    "all" or the category of some record; and the values, which are the
    keys of the buttons, are all different exactly when no record has the
    category "all". *)
Theorem categoryOptions_values
    (localeSort : list string → list string) (allSources : list FlashcardSource) :
  (∀ l, localeSort l ≡ₚ l) →
  let values := fst <$> categoryOptions localeSort allSources in
  head (categoryOptions localeSort allSources) = Some (CATEGORY_ALL, "All Topics")
  ∧ NoDup (tail values)
  ∧ (∀ value, value ∈ values ↔ chipShown allSources value = true)
  ∧ (NoDup values ↔ CATEGORY_ALL ∉ Source.category <$> allSources)
  ∧ length values = S (length (uniqueValues (Source.category <$> allSources))).
Proof.
  intros Hsort. cbv zeta. unfold categoryOptions.
  set (categories := localeSort _).
  assert (categories ≡ₚ uniqueValues (Source.category <$> allSources)) as Hperm
    by apply Hsort.
  assert (NoDup categories) as Hnd
    by (rewrite Hperm; apply foldl_Set_add_NoDup, NoDup_nil_2).
  assert (∀ c, c ∈ categories ↔ c ∈ Source.category <$> allSources) as Hin.
  { intros c. rewrite Hperm. unfold uniqueValues.
    rewrite foldl_Set_add_elem, elem_of_nil. tauto. }
  rewrite fmap_cons, <- list_fmap_compose. cbn [fst tail].
  assert ((fst ∘ (λ category : string, (category, category))) <$> categories
          = categories) as ->
    by (clear; induction categories as [|c l IH]; [done|]; cbn; by rewrite IH).
  split; [done|]. split; [done|]. split_and!.
  - intros value. unfold chipShown.
    by rewrite elem_of_cons, bool_decide_eq_true, Hin.
  - rewrite NoDup_cons, Hin. tauto.
  - cbn [length]. by rewrite Hperm.
Qed.

Lemma categoryOptions_values_witness :
  (∀ l : list string, id l ≡ₚ l)
  ∧ NoDup (tail (fst <$> categoryOptions id mixedBank))
  ∧ "Speed" ∈ fst <$> categoryOptions id mixedBank
  ∧ "Boats" ∉ fst <$> categoryOptions id mixedBank.
Proof.
  split; [done|].
  pose proof (categoryOptions_values id mixedBank (λ l, reflexivity l)) as H.
  cbv zeta in H. destruct H as (_ & Hnd & Hchip & _).
  split; [exact Hnd|]. split.
  - apply Hchip. vm_compute. reflexivity.
  - intros Hin. apply Hchip in Hin. vm_compute in Hin. discriminate.
Defined.

(** With a category named "all" the key "all" is given twice. *)
Example categoryOptions_all_twice :
  fst <$> categoryOptions id [record "A" "Yield" "all" None; record "B" "Stop" "Signs" None]
  = ["all"; "all"; "Signs"].
Proof. vm_compute. reflexivity. Qed.

(** ** Mounting, and "Shuffle Deck" *)

(** X19: after mounting the component is in study mode with the filter
    "all", on the first card with nothing selected, the score at 0 and the
    summary off, in the preferred theme, and the deck holds one card for
    each record of the bank; an empty bank gives the "no cards" screen. *)
Theorem mount_state
    (allSources : list FlashcardSource) (preferred : Theme) (g : Rand) :
  let s := (mount allSources preferred g).1 in
  theme s = preferred ∧ mode s = study ∧ activeCategory s = CATEGORY_ALL
  ∧ currentIndex s = 0 ∧ selectedOption s = None
  ∧ correctCount s = 0 ∧ showSummary s = false
  ∧ cardFields <$> deck s ≡ₚ sourceFields <$> allSources
  ∧ (allSources = [] → render s = EmptyDeckScreen).
Proof.
  cbv zeta. unfold mount. rewrite Gen_bind_fst.
  rewrite studyEffect_study by done. cbn.
  split_and!; try done.
  - apply buildDeck_fields.
  - by intros ->.
Qed.

(** X20: "Shuffle Deck", shown on a card in study mode, builds a new deck
    with one card for each record of the active filter (with the filter
    "all" one for each record of the bank, with another filter one for
    each record of that category and no card of another category) and goes
    to its first card with nothing selected; mode, filter, theme, score
    and summary flag are left as they are. *)
Theorem press_shuffle
    (allSources : list FlashcardSource) (s : AppState) (g : Rand) :
  shown allSources s PressShuffle = true →
  ∃ s',
    (press allSources PressShuffle s g).1 = Some s'
    ∧ mode s' = study ∧ activeCategory s' = activeCategory s
    ∧ theme s' = theme s
    ∧ correctCount s' = correctCount s ∧ showSummary s' = showSummary s
    ∧ currentIndex s' = 0 ∧ selectedOption s' = None
    ∧ deck s'
      = (buildDeck
           (if decide (activeCategory s = CATEGORY_ALL) then allSources
            else filter (λ item, Source.category item = activeCategory s)
                   allSources)
           allSources g).1
    ∧ (activeCategory s = CATEGORY_ALL →
       cardFields <$> deck s' ≡ₚ sourceFields <$> allSources)
    ∧ (activeCategory s ≠ CATEGORY_ALL →
       Forall (λ card, Question.category card = activeCategory s) (deck s')
       ∧ cardFields <$> deck s'
         ≡ₚ sourceFields
              <$> filter (λ item, Source.category item = activeCategory s)
                    allSources).
Proof.
  intros Hshown. unfold press. rewrite Hshown.
  apply shown_shuffle in Hshown as (Hne & Hmode).
  cbn [handle]. unfold handleRestart. rewrite Hmode, !Gen_bind_fst.
  cbn [mret Gen_ret fst snd]. rewrite Gen_bind_fst.
  rewrite afterRender_same by done.
  eexists. split; [done|].
  cbn [mode activeCategory theme currentIndex selectedOption correctCount
       showSummary deck setSelectedOption setCurrentIndex setDeck].
  destruct (buildDeck_deckOfFilter allSources s g) as [Hall Hcat].
  split_and!; done.
Qed.

(** ** The percentage of the summary *)

Lemma scorePercent_progressAt s :
  deck s ≠ [] →
  scorePercent (summaryOf s) = progressAt (correctCount s) (length (deck s)).
Proof.
  intros Hne. unfold summaryOf, progressAt, progress.
  cbn [scorePercent deck currentIndex selectedOption].
  rewrite length_replicate, Nat.add_0_r.
  destruct (length (deck s)) eqn:Hlen; [by destruct (deck s)|done].
Qed.

(** The percentage shown is the exactly rounded one, or one less. *)
Definition nearExact (K N : nat) : bool :=
  match progressAt K N with
  | Some p => bool_decide (p = roundedPercent K N ∨ p = (roundedPercent K N - 1)%Z)
  | None => false
  end.

Definition nearExactBelow (bound : nat) : bool :=
  forallb (λ N, forallb (λ K, nearExact K N) (seq 0 (S N))) (seq 1 bound).

Lemma nearExactBelow_200 : nearExactBelow 199 = true.
Proof. vm_compute. reflexivity. Qed.

Lemma nearExactBelow_spec bound K N :
  nearExactBelow bound = true → 1 ≤ N ≤ bound → K ≤ N → nearExact K N = true.
Proof.
  unfold nearExactBelow. intros H HN HK. rewrite forallb_forall in H.
  specialize (H N). rewrite in_seq in H. specialize (H ltac:(lia)).
  rewrite forallb_forall in H. apply H. rewrite in_seq. lia.
Qed.

(** X21: on the summary of a deck of fewer than 200 cards the percentage
    shown is a whole number from 0 to 100, 0 only when no answer was
    correct and 100 only when all were; it is round(100*K/N) or, where the
    floating-point product falls just short of a half, one less. *)
Theorem scorePercent_bounds (s : AppState) :
  deck s ≠ [] → length (deck s) < 200 → correctCount s ≤ length (deck s) →
  ∃ p,
    scorePercent (summaryOf s) = Some p
    ∧ (0 ≤ p ≤ 100)%Z
    ∧ (p = 0%Z ↔ correctCount s = 0)
    ∧ (p = 100%Z ↔ correctCount s = length (deck s))
    ∧ (p = roundedPercent (correctCount s) (length (deck s))
       ∨ p = (roundedPercent (correctCount s) (length (deck s)) - 1)%Z).
Proof.
  intros Hne Hlen Hcount. rewrite scorePercent_progressAt by done.
  assert (1 ≤ length (deck s) ≤ 199) as Hrange
    by (destruct (deck s); [done|simpl in *; lia]).
  destruct (progressInRange_below _ _ Hrange Hcount)
    as (p & Hp & Hbounds & Hzero & Hfull).
  exists p. split; [done|]. split; [done|]. split; [done|]. split; [done|].
  pose proof (nearExactBelow_spec 199 _ _ nearExactBelow_200 Hrange Hcount) as Hnear.
  unfold nearExact in Hnear. rewrite Hp in Hnear.
  apply bool_decide_eq_true in Hnear. exact Hnear.
Qed.

Lemma scorePercent_bounds_witness :
  let s := mkApp light CATEGORY_ALL practiceTest (replicate 40 stopCard)
             39 (Some 3) 23 true in
  scorePercent (summaryOf s) = Some 57%Z
  ∧ ∃ p, scorePercent (summaryOf s) = Some p
         ∧ p = (roundedPercent 23 40 - 1)%Z.
Proof.
  cbv zeta. split; [vm_compute; reflexivity|].
  destruct (scorePercent_bounds
              (mkApp light CATEGORY_ALL practiceTest (replicate 40 stopCard)
                 39 (Some 3) 23 true))
    as (p & Hp & _ & _ & _ & Hnear).
  - discriminate.
  - vm_compute. lia.
  - vm_compute. lia.
  - exists p. split; [exact Hp|].
    assert (p = 57%Z) as -> by (vm_compute in Hp; congruence).
    vm_compute. reflexivity.
Defined.

End Code.

(** * The code on ASCII text *)

(** ** The two string methods on ASCII text

    On a string of ASCII characters [String.prototype.trim] removes the
    leading and trailing TAB, LF, VT, FF, CR and SP, and
    [String.prototype.toLowerCase] replaces the letters [A]-[Z] by [a]-[z].
    The functions below are the two methods on such strings; the examples
    that follow run the code on ASCII text only. *)

Module AsciiText.

Definition is_white (a : ascii) : bool :=
  let n := nat_of_ascii a in
  (n =? 9) || (n =? 10) || (n =? 11) || (n =? 12) || (n =? 13) || (n =? 32).

Fixpoint trimStart (s : string) : string :=
  match s with
  | EmptyString => EmptyString
  | String a r => if is_white a then trimStart r else s
  end.

Fixpoint trimEnd (s : string) : string :=
  match s with
  | EmptyString => EmptyString
  | String a r =>
      match trimEnd r with
      | EmptyString => if is_white a then EmptyString else String a EmptyString
      | r' => String a r'
      end
  end.

Definition trimAscii (s : string) : string := trimEnd (trimStart s).

Definition lower_char (a : ascii) : ascii :=
  let n := nat_of_ascii a in
  if (65 <=? n) && (n <=? 90) then ascii_of_nat (n + 32) else a.

Fixpoint toLowerCaseAscii (s : string) : string :=
  match s with
  | EmptyString => EmptyString
  | String a r => String (lower_char a) (toLowerCaseAscii r)
  end.

Definition starts_black (s : string) : Prop :=
  match s with
  | EmptyString => True
  | String a _ => is_white a = false
  end.

Lemma trimStart_black s : starts_black (trimStart s).
Proof.
  induction s as [|a r IH]; simpl; [done|].
  destruct (is_white a) eqn:E; [done|]. simpl. done.
Qed.

Lemma trimStart_fixed s : starts_black s → trimStart s = s.
Proof. destruct s as [|a r]; simpl; [done|]. by intros ->. Qed.

Lemma trimEnd_black s : starts_black s → starts_black (trimEnd s).
Proof.
  destruct s as [|a r]; simpl; [done|]. intros E.
  destruct (trimEnd r); rewrite ?E; simpl; done.
Qed.

Lemma trimEnd_idem s : trimEnd (trimEnd s) = trimEnd s.
Proof.
  induction s as [|a r IH]; simpl; [done|].
  destruct (trimEnd r) as [|b t] eqn:E.
  - destruct (is_white a) eqn:W; simpl; [done|]. by rewrite W.
  - simpl. simpl in IH. rewrite IH. done.
Qed.

Lemma trimAscii_idem s : trimAscii (trimAscii s) = trimAscii s.
Proof.
  unfold trimAscii.
  rewrite (trimStart_fixed (trimEnd (trimStart s))).
  - apply trimEnd_idem.
  - apply trimEnd_black, trimStart_black.
Qed.

Definition asciiOps : StringOps :=
  {| trim := trimAscii;
     toLowerCase := toLowerCaseAscii;
     trim_idem := trimAscii_idem;
     trim_empty := eq_refl |}.

End AsciiText.

(** ** Runs of the code *)

Section Runs.
#[local] Existing Instance AsciiText.asciiOps.

(** With every draw 0 the options of "Yield" over [caseBank] are these. *)
Example caseBank_options :
  (buildOptions yieldSource caseBank caseBank []).1
  = (["Stop"; "stop"; "STOP"; "Yield"], 3).
Proof. vm_compute. reflexivity. Qed.

(** The example of section 8 of the spec, with a script of draws. *)
Example signsBank_options :
  (buildOptions yieldSource signsBank signsBank [3; 1; 2; 0; 1; 2; 3]).1
  = (["Stop"; "Speed Limit"; "Yield"; "Merge"], 2).
Proof. vm_compute. reflexivity. Qed.

(** A blank answer is no candidate: three other answers, three options. *)
Example blankBank_options :
  (buildOptions yieldSource blankBank blankBank []).1
  = (["Stop"; "Go"; "Yield"], 2).
Proof. vm_compute. reflexivity. Qed.

Lemma not_distinctFolded_case : ¬ distinctFolded ["Stop"; "stop"; "STOP"; "Yield"].
Proof.
  unfold distinctFolded. intros H.
  apply NoDup_cons_1_1 in H. apply H. vm_compute. apply list_elem_of_here.
Qed.

(** C1: the code at the failing input.  Over a bank with the answers
    "Stop", "stop" and "STOP" the options of "Yield", alone or as a card of
    a deck, hold all three, which are equal to each other once trimmed and
    case-folded: line 43 compares a candidate with the answer under
    [trim().toLowerCase()], line 44 enters it in the set under [trim()]
    alone. *)
Theorem buildOptions_folded_duplicates :
  (buildOptions yieldSource caseBank caseBank []).1
  = (["Stop"; "stop"; "STOP"; "Yield"], 3)
  ∧ Question.options (buildCard caseBank yieldSource []).1
    = ["Stop"; "stop"; "STOP"; "Yield"]
  ∧ same_folded "Stop" "stop" ∧ same_folded "stop" "STOP"
  ∧ ¬ distinctFolded (buildOptions yieldSource caseBank caseBank []).1.1
  ∧ ¬ same_folded "Stop" (Source.answer yieldSource).
Proof.
  split_and!; try (vm_compute; reflexivity).
  - rewrite caseBank_options. apply not_distinctFolded_case.
  - vm_compute. discriminate.
Qed.

Lemma blankBank_threeOtherAnswers : threeOtherAnswers yieldSource blankBank.
Proof.
  exists " ", "Stop", "Go".
  split_and!; try (vm_compute; set_solver); by vm_compute.
Qed.

(** C2, as stated, fails: [blankBank] holds three other answers (" ",
    "Stop", "Go") that differ from each other and from "Yield" once trimmed
    and case-folded, yet [buildOptions] returns three options: line 42
    skips the blank one. *)
Lemma buildOptions_three_of_blank :
  threeOtherAnswers yieldSource blankBank
  ∧ ¬ (length (buildOptions yieldSource blankBank blankBank []).1.1 = 4
       ∧ distinctFolded (buildOptions yieldSource blankBank blankBank []).1.1
       ∧ pointsAtAnswer (Source.answer yieldSource)
           (buildOptions yieldSource blankBank blankBank []).1.1
           (buildOptions yieldSource blankBank blankBank []).1.2).
Proof.
  split; [apply blankBank_threeOtherAnswers|].
  rewrite blankBank_options. intros (H & _). discriminate H.
Qed.

Lemma signsBank_threeAdmittedAnswers : threeAdmittedAnswers yieldSource signsBank.
Proof.
  exists "Stop", "Merge", "Speed Limit".
  split_and!; try (vm_compute; set_solver); try by vm_compute.
  all: split; by vm_compute.
Qed.

Lemma signsBank_caseClean :
  caseClean yieldSource (candidatesOf yieldSource signsBank signsBank).
Proof.
  intros a b Ha Hb _ _ H.
  apply list_elem_of_In in Ha. apply list_elem_of_In in Hb.
  vm_compute in Ha, Hb.
  repeat (destruct Ha as [<-|Ha]); try done;
    repeat (destruct Hb as [<-|Hb]); try done;
    first [reflexivity | vm_compute in H; discriminate H].
Qed.

Lemma buildOptions_four_options_witness :
  threeAdmittedAnswers yieldSource signsBank
  ∧ let r := (buildOptions yieldSource signsBank signsBank [3; 1; 2; 0; 1; 2; 3]).1 in
    length r.1 = 4
    ∧ pointsAtAnswer (Source.answer yieldSource) r.1 r.2
    ∧ distinctFolded r.1.
Proof.
  split; [apply signsBank_threeAdmittedAnswers|].
  destruct (buildOptions_four_options yieldSource signsBank signsBank
              [3; 1; 2; 0; 1; 2; 3] signsBank_threeAdmittedAnswers)
    as (Hlen & Hpoints & Hfolded).
  split_and!; [exact Hlen|exact Hpoints|exact (Hfolded signsBank_caseClean)].
Defined.

(** A bank of 51 records, numbered in unary. *)
Fixpoint tally (n : nat) : string :=
  match n with
  | 0 => ""
  | S n' => String "I" (tally n')
  end.

Definition numbered (n : nat) : FlashcardSource :=
  record (tally n) (tally n) "Signs" None.

Definition bigBank : list FlashcardSource := numbered <$> seq 0 51.

(** The last record of a bank of 51 can be drawn into the practice test. *)
Lemma startPracticeTest_sample_and_reset_witness :
  length bigBank = 51
  ∧ bigBank !! 50 = Some (numbered 50)
  ∧ ∃ g',
      sourceFields (numbered 50)
      ∈ cardFields <$> deck (pressStartPracticeTest bigBank practiceStart g').1.
Proof.
  split; [reflexivity|]. split; [reflexivity|].
  destruct (startPracticeTest_sample_and_reset bigBank practiceStart [])
    as (_ & _ & _ & _ & _ & _ & _ & _ & _ & _ & _ & _ & Hany).
  destruct (Hany (numbered 50 :: (numbered <$> seq 0 50))) as [g' Hg'].
  { change bigBank with ((numbered <$> seq 0 50) ++ [numbered 50]).
    apply (Permutation_app_comm (numbered <$> seq 0 50) [numbered 50]). }
  exists g'. rewrite Hg'. apply list_elem_of_fmap_2.
  change (50 `min` length bigBank) with 50. apply list_elem_of_here.
Defined.

Lemma practiceTest_summary_witness :
  signsBank ≠ []
  ∧ ∃ final,
      answerAll signsBank [3; 0; 3; 2]
        (pressStartPracticeTest signsBank practiceStart [3; 1; 2]).1
        (pressStartPracticeTest signsBank practiceStart [3; 1; 2]).2
      = (Some final, (pressStartPracticeTest signsBank practiceStart [3; 1; 2]).2)
      ∧ correctCount final = 2
      ∧ passed (summaryOf final) = false.
Proof.
  split; [discriminate|].
  assert (correctClicks
            (deck (pressStartPracticeTest signsBank practiceStart [3; 1; 2]).1)
            [3; 0; 3; 2] = 2) as HK by (vm_compute; reflexivity).
  assert (length (deck (pressStartPracticeTest signsBank practiceStart [3; 1; 2]).1)
          = 4) as HN by (vm_compute; reflexivity).
  destruct (practiceTest_summary signsBank practiceStart [3; 1; 2] [3; 0; 3; 2])
    as (final & Hrun & Hcount & _ & Hpass & _).
  - discriminate.
  - rewrite HN. reflexivity.
  - rewrite HK in Hcount. rewrite HK, HN in Hpass.
    exists final. split; [exact Hrun|]. split; [exact Hcount|].
    destruct (passed (summaryOf final)); [|reflexivity].
    apply proj1 in Hpass. specialize (Hpass eq_refl).
    vm_compute in Hpass. destruct (Hpass eq_refl).
Defined.

(** The card of the one record of the category "Speed" of [mixedBank]. *)
Definition speedCard : PermitQuestion :=
  Question.mk "E" "" ["Stop"; "25 mph"; "Merge"; "Yield"] 1 "25 mph" "" "Speed" None.

(** A study session under the filter "Speed", its one card answered. *)
Definition studySpeed : AppState :=
  mkApp light "Speed" study [speedCard] 0 (Some 1) 0 false.

(** A practice test started under the filter "Speed". *)
Definition practiceSpeed : AppState :=
  mkApp light "Speed" practiceTest [stopCard; yieldCard] 0 None 0 false.

(** Of the five records of [mixedBank] the filter "Speed" keeps one. *)
Lemma handleNext_cases_witness :
  handleNext signsBank practiceStart []
  = (mkApp light CATEGORY_ALL practiceTest [stopCard; yieldCard] 1 None 0 false, [])
  ∧ (length mixedBank = 5
     ∧ length (deck (handleNext mixedBank studySpeed []).1) = 1
     ∧ Forall (λ card, Question.category card = "Speed")
         (deck (handleNext mixedBank studySpeed []).1)
     ∧ currentIndex (handleNext mixedBank studySpeed []).1 = 0
     ∧ selectedOption (handleNext mixedBank studySpeed []).1 = None)
  ∧ handleNext signsBank
      (mkApp light CATEGORY_ALL practiceTest [stopCard; yieldCard] 1 (Some 2) 1 false) []
    = (mkApp light CATEGORY_ALL practiceTest [stopCard; yieldCard] 1 (Some 2) 1 true, []).
Proof.
  split; [|split].
  - apply (handleNext_cases signsBank practiceStart []). simpl. lia.
  - pose proof (proj1 (proj2 (handleNext_cases mixedBank studySpeed []))
                  ltac:(simpl; lia) eq_refl) as H.
    cbv zeta in H. destruct H as (_ & Hidx & Hsel & _ & Hcat).
    destruct (Hcat ltac:(discriminate)) as [Hall Hperm].
    split_and!; [reflexivity| |exact Hall|exact Hidx|exact Hsel].
    apply Permutation_length in Hperm. rewrite !length_fmap in Hperm.
    rewrite Hperm. vm_compute. reflexivity.
  - apply (handleNext_cases signsBank
             (mkApp light CATEGORY_ALL practiceTest [stopCard; yieldCard] 1 (Some 2) 1 false) []).
    + simpl. lia.
    + reflexivity.
Defined.

Lemma curatedSource_three : threeAdmitted curatedSource (curatedOf curatedSource).
Proof.
  exists " Stop ", "Merge", "Do Not Enter".
  split_and!; try (vm_compute; set_solver); try by vm_compute.
  all: split; by vm_compute.
Qed.

Lemma buildOptions_curated_first_witness :
  threeAdmitted curatedSource (curatedOf curatedSource)
  ∧ buildOptions curatedSource signsBank signsBank [2; 0; 1]
    = buildOptions curatedSource [] [] [2; 0; 1]
  ∧ (buildOptions curatedSource signsBank signsBank [2; 0; 1]).1.1
    = ["Do Not Enter"; "Stop"; "Merge"; "Yield"].
Proof.
  split; [apply curatedSource_three|].
  split.
  - apply (buildOptions_curated_first curatedSource signsBank signsBank [] [] [2; 0; 1]).
    apply curatedSource_three.
  - vm_compute. reflexivity.
Defined.

Lemma mixedBank_three :
  threeAdmitted yieldSource
    (curatedOf yieldSource ++ otherAnswers yieldSource signsBank).
Proof.
  exists "Stop", "Merge", "Speed Limit".
  split_and!; try (vm_compute; set_solver); try by vm_compute.
  all: split; by vm_compute.
Qed.

Lemma buildOptions_category_before_global_witness :
  threeAdmitted yieldSource
    (curatedOf yieldSource ++ otherAnswers yieldSource signsBank)
  ∧ buildOptions yieldSource signsBank mixedBank [1; 1; 0]
    = buildOptions yieldSource signsBank [] [1; 1; 0].
Proof.
  split; [apply mixedBank_three|].
  apply (buildOptions_category_before_global yieldSource signsBank mixedBank []
           [1; 1; 0]).
  apply mixedBank_three.
Defined.

(** After the chip "Speed" the deck holds the one card of that category. *)
Lemma session_deck_contents_witness :
  ∃ s,
    (session mixedBank light [PressCategory "Speed"] []).1 = Some s
    ∧ activeCategory s = "Speed"
    ∧ length (deck s) = 1
    ∧ Forall (λ card, Question.category card = "Speed") (deck s).
Proof.
  destruct (session_deck_contents mixedBank light [PressCategory "Speed"] [])
    as (s & Hs & _ & Hstudy & _).
  assert (mode s = study ∧ activeCategory s = "Speed") as [Hmode Hcat].
  { pose proof Hs as Hrun. vm_compute in Hrun. injection Hrun as Hrun.
    rewrite <- Hrun. split; reflexivity. }
  destruct (Hstudy Hmode) as [_ Hfilter].
  destruct (Hfilter ltac:(rewrite Hcat; discriminate)) as [Hall Hperm].
  rewrite Hcat in Hall, Hperm.
  exists s. split_and!; [exact Hs|exact Hcat| |exact Hall].
  apply Permutation_length in Hperm. rewrite !length_fmap in Hperm.
  rewrite Hperm. vm_compute. reflexivity.
Defined.

Lemma press_category_witness :
  shown mixedBank studySigns (PressCategory "Speed") = true
  ∧ press mixedBank (PressCategory "all") studySigns [7] = (Some studySigns, [7])
  ∧ ∃ s',
      (press mixedBank (PressCategory "Speed") studySigns []).1 = Some s'
      ∧ activeCategory s' = "Speed"
      ∧ length (deck s') = 1
      ∧ Forall (λ card, Question.category card = "Speed") (deck s').
Proof.
  assert (shown mixedBank studySigns (PressCategory "Speed") = true)
    as Hshown by (vm_compute; reflexivity).
  assert (shown mixedBank studySigns (PressCategory "all") = true)
    as Hall by (vm_compute; reflexivity).
  split; [exact Hshown|]. split.
  { exact (proj1 (press_category mixedBank studySigns "all" [7] Hall) eq_refl). }
  destruct (proj2 (press_category mixedBank studySigns "Speed" [] Hshown))
    as (s' & Hs' & Hcat & _ & _ & _ & _ & _ & _ & Hfilter); [discriminate|].
  destruct (Hfilter ltac:(discriminate)) as (Hcards & Hperm & _).
  exists s'. split_and!; [exact Hs'|exact Hcat| |exact Hcards].
  apply Permutation_length in Hperm. rewrite !length_fmap in Hperm.
  rewrite Hperm. vm_compute. reflexivity.
Defined.

Lemma press_exit_practice_witness :
  shown mixedBank practiceSpeed PressExitPractice = true
  ∧ ∃ s',
      (press mixedBank PressExitPractice practiceSpeed []).1 = Some s'
      ∧ mode s' = study ∧ correctCount s' = 0
      ∧ length (deck s') = 1
      ∧ Forall (λ card, Question.category card = "Speed") (deck s').
Proof.
  assert (shown mixedBank practiceSpeed PressExitPractice = true)
    as Hshown by (vm_compute; reflexivity).
  split; [exact Hshown|].
  destruct (press_exit_practice mixedBank practiceSpeed [] Hshown)
    as (s' & Hs' & Hmode & _ & _ & _ & _ & Hcount & _ & _ & Hfilter).
  destruct (Hfilter ltac:(discriminate)) as (Hcards & Hperm).
  exists s'. split_and!; [exact Hs'|exact Hmode|exact Hcount| |exact Hcards].
  apply Permutation_length in Hperm. rewrite !length_fmap in Hperm.
  rewrite Hperm. vm_compute. reflexivity.
Defined.

Lemma press_shuffle_witness :
  shown mixedBank studySpeed PressShuffle = true
  ∧ ∃ s',
      (press mixedBank PressShuffle studySpeed [1; 2]).1 = Some s'
      ∧ currentIndex s' = 0
      ∧ length (deck s') = 1
      ∧ Forall (λ card, Question.category card = "Speed") (deck s').
Proof.
  assert (shown mixedBank studySpeed PressShuffle = true)
    as Hshown by (vm_compute; reflexivity).
  split; [exact Hshown|].
  destruct (press_shuffle mixedBank studySpeed [1; 2] Hshown)
    as (s' & Hs' & _ & _ & _ & _ & _ & Hidx & _ & _ & _ & Hfilter).
  destruct (Hfilter ltac:(discriminate)) as (Hcards & Hperm).
  exists s'. split_and!; [exact Hs'|exact Hidx| |exact Hcards].
  apply Permutation_length in Hperm. rewrite !length_fmap in Hperm.
  rewrite Hperm. vm_compute. reflexivity.
Defined.

End Runs.
